(** * dl4mia/02_regression: the paired augmentation transforms

    A shallow embedding of [src/01_CARE/transforms.py]: [normalize],
    [denormalize], [_flip_and_rotate] and [augment_batch], together with the
    NumPy operations those four functions call ([np.flip], [np.transpose] on
    the last two axes, [np.rot90] with [axes=(-2, -1)], [Generator.integers]).

    An [ndarray] is what NumPy stores: a shape and a C-ordered (row-major)
    buffer.  Python exceptions are the [Raise] results of an error monad; the
    generator objects that [np.random.default_rng] allocates live in a
    process heap that every call threads through.  The arithmetic of
    [normalize] and [denormalize] is IEEE binary64, NumPy's float64; the same
    formulas are also read over the rationals, where they are exact. *)

From Stdlib Require Import ZArith Lia List QArith Qcanon.
From Corelib Require Import PrimFloat.
From stdpp Require Import base list.
Import ListNotations.

#[local] Set Warnings "-inexact-float".

Set Default Proof Using "Type".

(** ** Exceptions *)

Inductive exn : Type :=
| ValueError
| AxisError
| IndexError.

Inductive result (T : Type) : Type :=
| Ok (value : T)
| Raise (e : exn).

Arguments Ok {T} value.
Arguments Raise {T} e.

Definition result_bind {T U : Type} (c : result T) (k : T -> result U) : result U :=
  match c with
  | Ok v => k v
  | Raise e => Raise e
  end.

Declare Scope result_scope.
Delimit Scope result_scope with result.
Notation "'let?' x ':=' c 'in' k" := (result_bind c (fun x => k))
  (at level 10, x name, c at level 100, k at level 200) : result_scope.

(** ** Arrays *)

Section NDArray.
Context {A : Type}.

(** [shape] is the tuple [a.shape]; [data] is the buffer in C order. *)
Record ndarray : Type := mk_ndarray { shape : list nat; data : list A }.

(** [np.prod(shape)], the number of elements. *)
Definition size_of (s : list nat) : nat := fold_right Nat.mul 1%nat s.

Definition ndim (a : ndarray) : nat := length (shape a).

(** The invariant every NumPy array satisfies. *)
Definition wf_ndarray (a : ndarray) : Prop := length (data a) = size_of (shape a).

(** [chunks n w l]: the first [n] consecutive blocks of [w] elements of [l]. *)
Fixpoint chunks (n w : nat) (l : list A) : list (list A) :=
  match n with
  | O => []
  | S n' => firstn w l :: chunks n' w (skipn w l)
  end.

(** Rewrite each of the [n] blocks of [sz] elements of a buffer. *)
Definition map_blocks (n sz : nat) (f : list A -> list A) (l : list A) : list A :=
  concat (map f (chunks n sz l)).

(** Put element [x_i] of a row in front of column [i]. *)
Fixpoint zip_cons (row : list A) (cols : list (list A)) : list (list A) :=
  match row, cols with
  | x :: row', c :: cols' => (x :: c) :: zip_cons row' cols'
  | _, _ => []
  end.

(** The [w] columns of a matrix given as a list of rows of length [w]. *)
Fixpoint columns (w : nat) (rows : list (list A)) : list (list A) :=
  match rows with
  | [] => repeat [] w
  | r :: rows' => zip_cons r (columns w rows')
  end.

(** [axis] normalised as NumPy does: negative axes count from the end. *)
Definition normalize_axis (axis : Z) (nd : nat) : result nat :=
  if ((axis <? - Z.of_nat nd) || (Z.of_nat nd <=? axis))%Z then Raise AxisError
  else Ok (Z.to_nat (if (axis <? 0)%Z then axis + Z.of_nat nd else axis)%Z).

(** [np.flip(m, axis)]: the entries along [axis] in reverse order.  With
    [shape = pre ++ [n] ++ post] the buffer is [prod pre] blocks, each of [n]
    sub-blocks of [prod post] elements; the sub-blocks are reversed. *)
Definition np_flip (m : ndarray) (axis : Z) : result ndarray :=
  (let? ax := normalize_axis axis (ndim m) in
   let pre := firstn ax (shape m) in
   let n := nth ax (shape m) O in
   let post := skipn (S ax) (shape m) in
   Ok {| shape := shape m;
         data := map_blocks (size_of pre) (n * size_of post)
                   (fun blk => concat (rev (chunks n (size_of post) blk)))
                   (data m) |})%result.

(** The last two entries of a shape, and what is before them. *)
Definition split_last2 (s : list nat) : option (list nat * nat * nat) :=
  match rev s with
  | w :: h :: lead => Some (rev lead, h, w)
  | _ => None
  end.

(** [np.transpose(m, axes_list)] where [axes_list] is [arange(m.ndim)] with
    its last two entries exchanged, as [np.rot90] builds it for
    [axes=(-2, -1)]: every [h] x [w] plane is replaced by its [w] x [h]
    transpose. *)
Definition np_transpose_last2 (m : ndarray) : result ndarray :=
  match split_last2 (shape m) with
  | Some (lead, h, w) =>
      Ok {| shape := lead ++ [w; h];
            data := map_blocks (size_of lead) (h * w)
                      (fun blk => concat (columns w (chunks h w blk)))
                      (data m) |}
  | None => Raise ValueError
  end.

(** [np.rot90(m, k, axes=(-2, -1))].  NumPy rejects the axes pair when the
    array has fewer than two dimensions, reduces [k] modulo 4, and then
    - [k == 0]: returns [m[:]];
    - [k == 2]: returns [flip(flip(m, axes[0]), axes[1])];
    - [k == 1]: returns [transpose(flip(m, axes[1]), axes_list)];
    - [k == 3]: returns [flip(transpose(m, axes_list), axes[1])]. *)
Definition np_rot90 (m : ndarray) (k : Z) : result ndarray :=
  if (ndim m <? 2)%nat then Raise ValueError
  else
    let k := (k mod 4)%Z in
    if (k =? 0)%Z then Ok m
    else if (k =? 2)%Z then
      (let? f := np_flip m (-2) in np_flip f (-1))%result
    else if (k =? 1)%Z then
      (let? f := np_flip m (-1) in np_transpose_last2 f)%result
    else
      (let? t := np_transpose_last2 m in np_flip t (-1))%result.

(** [ndarray.copy()]: a fresh buffer with the same shape and contents. *)
Definition ndarray_copy (m : ndarray) : ndarray :=
  {| shape := shape m; data := data m |}.

(** [_flip_and_rotate(image, rotate_state, flip_state)]. *)
Definition _flip_and_rotate (image : ndarray) (rotate_state flip_state : Z)
  : result ndarray :=
  (let? rotated := np_rot90 image rotate_state in
   let? flipped := (if (flip_state =? 1)%Z then np_flip rotated (-1)
                    else Ok rotated) in
   Ok (ndarray_copy flipped))%result.

(** [x[i]] for a natural index [i]: the [i]-th block of the buffer. *)
Definition subarray (x : ndarray) (i : nat) : result ndarray :=
  match shape x with
  | d :: s =>
      if i <? d then
        Ok {| shape := s;
              data := firstn (size_of s) (skipn (i * size_of s) (data x)) |}
      else Raise IndexError
  | [] => Raise IndexError
  end.

(** [n] successive quarter turns without flip. *)
Definition quarter_turns (n : nat) (x : ndarray) : result ndarray :=
  Nat.iter n (fun acc => let? y := acc in _flip_and_rotate y 1 0)%result (Ok x).

(** [x[i, j]] for a two-dimensional array and natural indices. *)
Definition get2 (x : ndarray) (i j : nat) : option A :=
  match shape x with
  | [h; w] => if (i <? h) && (j <? w) then data x !! (i * w + j) else None
  | _ => None
  end.

(** [x[i0, ..., ik]] for natural indices, as many as the array has
    dimensions: the element of [x[i0][i1]...[ik]]. *)
Fixpoint get (x : ndarray) (idx : list nat) {struct idx} : option A :=
  match idx with
  | [] => match shape x with
          | [] => data x !! 0
          | _ :: _ => None
          end
  | i :: idx' => match subarray x i with
                 | Ok xi => get xi idx'
                 | Raise _ => None
                 end
  end.

End NDArray.

Arguments ndarray A : clear implicits.

(** An elementwise operation, as NumPy broadcasts a scalar function over an
    array: same shape, every element replaced by its image. *)
Definition ndarray_map {A B : Type} (g : A -> B) (x : ndarray A) : ndarray B :=
  {| shape := shape x; data := map g (data x) |}.

Definition result_map {T U : Type} (g : T -> U) (c : result T) : result U :=
  match c with
  | Ok v => Ok (g v)
  | Raise e => Raise e
  end.

(** ** Normalisation

    The source writes four scalar operations, [-], [/], [*] and [+], which
    NumPy broadcasts over every element of the image.  Which numbers they
    work on is the array's business; the two formulas are the same. *)

Class Arith (S : Type) : Type := {
  arith_sub : S -> S -> S;
  arith_div : S -> S -> S;
  arith_mul : S -> S -> S;
  arith_add : S -> S -> S
}.

(** The arithmetic of the code: IEEE binary64 with round-to-nearest-even,
    infinities and NaN.  [mean] and [std] are Python floats, as annotated,
    and NumPy then computes in float64, for a float64 image and for an image
    of an integer dtype alike (it converts the latter first). *)
#[export] Instance float64_arith : Arith float := {|
  arith_sub := PrimFloat.sub;
  arith_div := PrimFloat.div;
  arith_mul := PrimFloat.mul;
  arith_add := PrimFloat.add
|}.

(** Exact arithmetic: the field of rationals. *)
#[export] Instance exact_arith : Arith Qc := {|
  arith_sub := Qcminus;
  arith_div := Qcdiv;
  arith_mul := Qcmult;
  arith_add := Qcplus
|}.

(** [normalize(image, mean, std)]: [(image - mean) / std]. *)
Definition normalize {S : Type} {ar : Arith S} (image : ndarray S) (mean std : S)
  : ndarray S :=
  {| shape := shape image;
     data := map (fun x => arith_div (arith_sub x mean) std) (data image) |}.

(** [denormalize(image, mean, std)]: [image * std + mean]. *)
Definition denormalize {S : Type} {ar : Arith S} (image : ndarray S) (mean std : S)
  : ndarray S :=
  {| shape := shape image;
     data := map (fun x => arith_add (arith_mul x std) mean) (data image) |}.


(** ** The random generator

    [np.random.default_rng(seed)] builds a [Generator] object whose bit
    generator is initialised from [seed] alone; [Generator.integers] reads
    and advances the state stored in that object.  The bit generator itself
    (NumPy's PCG64 behind a [SeedSequence]) is an interface here. *)

Class BitGenerator : Type := {
  bitgen_state : Type;
  (** the state a non-negative integer seed is expanded into *)
  bitgen_seed : Z -> bitgen_state;
  (** one draw from [[low, high)], and the advanced state *)
  bitgen_integers : bitgen_state -> Z -> Z -> Z * bitgen_state
}.

Section Process.
Context {G : BitGenerator}.

(** The part of the Python process these functions can touch: the
    [Generator] objects allocated so far, addressed by position. *)
Record process : Type := mk_process { generators : list bitgen_state }.

(** A computation that may raise and that reads and updates the process. *)
Definition M (T : Type) : Type := process -> result T * process.

Definition ret {T : Type} (v : T) : M T := fun s => (Ok v, s).

Definition bind {T U : Type} (c : M T) (k : T -> M U) : M U :=
  fun s =>
    match c s with
    | (Ok v, s') => k v s'
    | (Raise e, s') => (Raise e, s')
    end.

Definition lift {T : Type} (r : result T) : M T := fun s => (r, s).

(** [np.random.default_rng(seed)] for an integer [seed]: a negative seed is
    rejected with [ValueError]; otherwise a new [Generator] is allocated. *)
Definition default_rng (seed : Z) : M nat :=
  fun s =>
    if (seed <? 0)%Z then (Raise ValueError, s)
    else (Ok (length (generators s)),
          {| generators := generators s ++ [bitgen_seed seed] |}).

(** [rng.integers(low, high)]: [ValueError] when [low >= high]; otherwise a
    draw that advances the state held by the object [rng].  A position that
    holds no generator cannot come from [default_rng]; the model raises
    there. *)
Definition Generator_integers (rng : nat) (low high : Z) : M Z :=
  fun s =>
    if (high <=? low)%Z then (Raise ValueError, s)
    else
      match generators s !! rng with
      | Some st =>
          let '(v, st') := bitgen_integers st low high in
          (Ok v, {| generators := <[rng := st']> (generators s) |})
      | None => (Raise ValueError, s)
      end.

End Process.

Declare Scope proc_scope.
Delimit Scope proc_scope with proc.
Notation "'let*' x ':=' c 'in' k" := (bind c (fun x => k))
  (at level 10, x name, c at level 100, k at level 200) : proc_scope.

Section Augment.
Context {G : BitGenerator} {A : Type}.

(** Lines 104-106 of [augment_batch]: the generator and its two draws. *)
Definition draw_states (seed : Z) : M (Z * Z) :=
  (let* rng := default_rng seed in
   let* rotate_state := Generator_integers rng 0 4 in
   let* flip_state := Generator_integers rng 0 2 in
   ret (rotate_state, flip_state))%proc.

(** [augment_batch(patch, target, seed)].  The tuple's components are
    evaluated left to right. *)
Definition augment_batch (patch target : ndarray A) (seed : Z)
  : M (ndarray A * ndarray A) :=
  (let* rng := default_rng seed in
   let* rotate_state := Generator_integers rng 0 4 in
   let* flip_state := Generator_integers rng 0 2 in
   let* p := lift (_flip_and_rotate patch rotate_state flip_state) in
   let* t := lift (_flip_and_rotate target rotate_state flip_state) in
   ret (p, t))%proc.

(** [n] successive calls of [c] in one process: the results in call order
    and the process left behind. *)
Fixpoint repeat_call {T : Type} (n : nat) (c : M T) (s : process)
  : list (result T) * process :=
  match n with
  | O => ([], s)
  | S n' =>
      let '(r, s') := c s in
      let '(rs, s'') := repeat_call n' c s' in
      (r :: rs, s'')
  end.

(** The two draws a seed leads to, and the generator state after them. *)
Definition seeded_draws (seed : Z) : Z * Z * bitgen_state :=
  let '(r, st1) := bitgen_integers (bitgen_seed seed) 0 4 in
  let '(f, st2) := bitgen_integers st1 0 2 in
  (r, f, st2).

End Augment.

(** ** The plane view used to state and prove the properties

    An array of shape [lead ++ [h; w]] is [prod lead] planes, each a list of
    [h] rows of length [w]. *)

Section PlaneView.
Context {A : Type}.
Implicit Types (m : ndarray A) (lead : list nat) (r : list A)
  (rows cols : list (list A)).

(** [rows] is an [h] x [w] matrix. *)
Definition rect (h w : nat) rows : Prop :=
  length rows = h /\ Forall (fun r => length r = w) rows.

(** Put element [x_i] of a row behind column [i]. *)
Fixpoint zip_snoc cols r : list (list A) :=
  match cols, r with
  | c :: cols', x :: r' => (c ++ [x]) :: zip_snoc cols' r'
  | _, _ => []
  end.

(** The array whose planes are the images under [g] of the [h] x [w] planes
    of [m]; the new planes are [h'] x [w']. *)
Definition on_planes lead (h w h' w' : nat)
    (g : list (list A) -> list (list A)) m : ndarray A :=
  {| shape := lead ++ [h'; w'];
     data := map_blocks (size_of lead) (h * w)
               (fun blk => concat (g (chunks h w blk))) (data m) |}.

(** What [np.rot90] does to one plane, row by row. *)
Definition rot_rows (k : Z) (w : nat) rows : list (list A) :=
  let k := (k mod 4)%Z in
  if (k =? 0)%Z then rows
  else if (k =? 2)%Z then map (@rev A) (rev rows)
  else if (k =? 1)%Z then columns w (map (@rev A) rows)
  else map (@rev A) (columns w rows).

(** What [_flip_and_rotate] does to one plane, row by row. *)
Definition far_rows (rotate_state flip_state : Z) (w : nat) rows : list (list A) :=
  let rotated := rot_rows rotate_state w rows in
  if (flip_state =? 1)%Z then map (@rev A) rotated else rotated.

(** The spatial axis lengths after [k] quarter turns. *)
Definition rot_dims (k : Z) (h w : nat) : nat * nat :=
  if Z.odd k then (w, h) else (h, w).

End PlaneView.

(** ** Concrete inputs *)

(** A small linear congruential generator, to run the model on concrete
    inputs.  It is not NumPy's PCG64: no statement below depends on which
    numbers a generator draws. *)
Definition lcg_generator : BitGenerator := {|
  bitgen_state := Z;
  bitgen_seed := fun seed => (seed mod 2147483648)%Z;
  bitgen_integers := fun st low high =>
    let st' := ((1103515245 * st + 12345) mod 2147483648)%Z in
    ((low + (st' / 65536) mod (high - low))%Z, st')
|}.

Definition patch22 : ndarray Z := {| shape := [2; 2]; data := [1; 2; 3; 4]%Z |}.
Definition target22 : ndarray Z := {| shape := [2; 2]; data := [5; 6; 7; 8]%Z |}.
Definition target23 : ndarray Z := {| shape := [2; 3]; data := [5; 6; 7; 8; 9; 10]%Z |}.
Definition line3 : ndarray Z := {| shape := [3]; data := [1; 2; 3]%Z |}.
Definition stack223 : ndarray Z :=
  {| shape := [2; 2; 3]; data := [0; 1; 2; 3; 4; 5; 6; 7; 8; 9; 10; 11]%Z |}.



(** [np.arange(8).reshape((2, 2, 2))], the array of NumPy's own examples. *)
Definition arange222 : ndarray Z :=
  {| shape := [2; 2; 2]; data := [0; 1; 2; 3; 4; 5; 6; 7]%Z |}.

(** * Proofs *)

Ltac dims := unfold ndim; simpl; lia.

(** ** The examples of NumPy's documentation *)

Example np_flip_doc :
  np_flip arange222 0 =
    Ok {| shape := [2; 2; 2]; data := [4; 5; 6; 7; 0; 1; 2; 3]%Z |} /\
  np_flip arange222 1 =
    Ok {| shape := [2; 2; 2]; data := [2; 3; 0; 1; 6; 7; 4; 5]%Z |} /\
  np_flip arange222 (-1) =
    Ok {| shape := [2; 2; 2]; data := [1; 0; 3; 2; 5; 4; 7; 6]%Z |} /\
  np_flip arange222 3 = Raise AxisError.
Proof. repeat split. Qed.

Example np_rot90_doc :
  np_rot90 patch22 1 = Ok {| shape := [2; 2]; data := [2; 4; 1; 3]%Z |} /\
  np_rot90 patch22 2 = Ok {| shape := [2; 2]; data := [4; 3; 2; 1]%Z |} /\
  np_rot90 arange222 1 =
    Ok {| shape := [2; 2; 2]; data := [1; 3; 0; 2; 5; 7; 4; 6]%Z |} /\
  np_rot90 target23 1 =
    Ok {| shape := [3; 2]; data := [7; 10; 6; 9; 5; 8]%Z |} /\
  np_rot90 target23 (-1) =
    Ok {| shape := [3; 2]; data := [8; 5; 9; 6; 10; 7]%Z |}.
Proof. repeat split. Qed.

(** ** Blocks of a buffer *)

Section Blocks.
Context {A : Type}.
Implicit Types (l blk : list A) (rows : list (list A)).

Lemma length_chunks n w l : length (chunks n w l) = n.
Proof. revert l; induction n as [|n IH]; intros l; simpl; [|rewrite IH]; reflexivity. Qed.

Lemma chunks_row_length n w l :
  n * w <= length l -> Forall (fun r => length r = w) (chunks n w l).
Proof.
  revert l; induction n as [|n IH]; intros l Hl; simpl in *; constructor.
  - rewrite length_firstn. lia.
  - apply IH. rewrite length_skipn. lia.
Qed.

Lemma concat_chunks n w l : length l = n * w -> concat (chunks n w l) = l.
Proof.
  revert l; induction n as [|n IH]; intros l Hl; simpl in *.
  - destruct l; [reflexivity | discriminate].
  - rewrite IH; [apply firstn_skipn | rewrite length_skipn; lia].
Qed.

Lemma chunks_concat w rows :
  Forall (fun r => length r = w) rows ->
  chunks (length rows) w (concat rows) = rows.
Proof.
  induction 1 as [|r rows Hr _ IH]; simpl; [reflexivity|].
  rewrite take_app_length', drop_app_length' by (symmetry; exact Hr).
  rewrite IH. reflexivity.
Qed.

Lemma length_concat_rows w rows :
  Forall (fun r => length r = w) rows -> length (concat rows) = length rows * w.
Proof.
  induction 1 as [|r rows Hr _ IH]; simpl; [reflexivity|].
  rewrite length_app, IH, Hr. reflexivity.
Qed.

Lemma chunks_firstn n w l : chunks n w (firstn (n * w) l) = chunks n w l.
Proof.
  revert l; induction n as [|n IH]; intros l; simpl; [reflexivity|].
  rewrite firstn_firstn, Nat.min_l by lia.
  rewrite skipn_firstn_comm.
  replace (w + n * w - w) with (n * w) by lia.
  rewrite IH. reflexivity.
Qed.

Lemma chunks_add n m w l :
  chunks (n + m) w l = chunks n w l ++ chunks m w (skipn (n * w) l).
Proof.
  revert l; induction n as [|n IH]; intros l; simpl; [reflexivity|].
  rewrite IH, drop_drop. reflexivity.
Qed.

(** Cutting [a * h] rows is cutting [a] planes and each plane into [h] rows. *)
Lemma chunks_mul a h w l :
  chunks (a * h) w l = concat (map (chunks h w) (chunks a (h * w) l)).
Proof.
  revert l; induction a as [|a IH]; intros l; simpl; [reflexivity|].
  rewrite chunks_add, IH, chunks_firstn. reflexivity.
Qed.

Lemma concat_concat (lll : list (list (list A))) :
  concat (concat lll) = concat (map (@concat A) lll).
Proof.
  induction lll as [|ll lll IH]; simpl; [reflexivity|].
  rewrite concat_app, IH. reflexivity.
Qed.

Lemma chunks_singletons blk : chunks (length blk) 1 blk = map (fun x => [x]) blk.
Proof.
  induction blk as [|x blk IH]; simpl; [reflexivity|].
  rewrite drop_0, IH. reflexivity.
Qed.

Lemma concat_singletons blk : concat (map (fun x => [x]) blk) = blk.
Proof. induction blk as [|x blk IH]; simpl; [|rewrite IH]; reflexivity. Qed.

(** Reversing the unit sub-blocks of a row is reversing the row. *)
Lemma flip_row w blk :
  length blk = w -> concat (rev (chunks w 1 blk)) = rev blk.
Proof.
  intros <-. rewrite chunks_singletons, <- map_rev. apply concat_singletons.
Qed.

Lemma map_blocks_ext n sz (f g : list A -> list A) l :
  n * sz <= length l ->
  (forall blk, length blk = sz -> f blk = g blk) ->
  map_blocks n sz f l = map_blocks n sz g l.
Proof.
  intros Hl Hfg. unfold map_blocks. f_equal.
  apply map_ext_Forall.
  eapply Forall_impl; [apply chunks_row_length, Hl | exact Hfg].
Qed.

Lemma map_blocks_id n sz (f : list A -> list A) l :
  length l = n * sz ->
  (forall blk, length blk = sz -> f blk = blk) ->
  map_blocks n sz f l = l.
Proof.
  intros Hl Hf.
  rewrite (map_blocks_ext n sz f (fun blk => blk)) by (lia || assumption).
  unfold map_blocks. rewrite map_id. apply concat_chunks, Hl.
Qed.

Lemma length_map_blocks n sz sz' (f : list A -> list A) l :
  n * sz <= length l ->
  (forall blk, length blk = sz -> length (f blk) = sz') ->
  length (map_blocks n sz f l) = n * sz'.
Proof.
  intros Hl Hf. unfold map_blocks.
  rewrite (length_concat_rows sz'), length_map, length_chunks; [reflexivity|].
  apply Forall_map.
  eapply Forall_impl; [apply chunks_row_length, Hl | exact Hf].
Qed.

(** Two block-wise passes over the same blocks are one. *)
Lemma map_blocks_compose n sz sz' (f g : list A -> list A) l :
  n * sz <= length l ->
  (forall blk, length blk = sz -> length (f blk) = sz') ->
  map_blocks n sz' g (map_blocks n sz f l) = map_blocks n sz (fun blk => g (f blk)) l.
Proof.
  intros Hl Hf. unfold map_blocks at 1 3.
  assert (Hrows : Forall (fun r => length r = sz') (map f (chunks n sz l))).
  { apply Forall_map.
    eapply Forall_impl; [apply chunks_row_length, Hl | exact Hf]. }
  pose proof (chunks_concat sz' _ Hrows) as Hc.
  rewrite length_map, length_chunks in Hc.
  unfold map_blocks at 1. rewrite Hc, map_map. reflexivity.
Qed.

(** Row-wise work on [a * h] rows is plane-wise work on [a] planes. *)
Lemma map_blocks_rows a h w (f : list A -> list A) l :
  map_blocks (a * h) w f l =
  map_blocks a (h * w) (fun blk => concat (map f (chunks h w blk))) l.
Proof.
  unfold map_blocks.
  rewrite chunks_mul, concat_map, concat_concat, !map_map. reflexivity.
Qed.

End Blocks.

(** ** Matrices as lists of rows *)

Section Matrices.
Context {A : Type}.
Implicit Types (r : list A) (rows cols : list (list A)).

Lemma rect_map_rev h w rows : rect h w rows -> rect h w (map (@rev A) rows).
Proof.
  intros [Hh Hw]. split; [rewrite length_map; exact Hh|].
  apply Forall_map. eapply Forall_impl; [exact Hw|].
  intros r Hr; simpl. rewrite length_rev. exact Hr.
Qed.

Lemma rect_rev h w rows : rect h w rows -> rect h w (rev rows).
Proof.
  intros [Hh Hw]. split; [rewrite length_rev; exact Hh | apply Forall_rev, Hw].
Qed.

Lemma rect_chunks h w (l : list A) : h * w <= length l -> rect h w (chunks h w l).
Proof. intros Hl. split; [apply length_chunks | apply chunks_row_length, Hl]. Qed.

Lemma rect_concat h w rows : rect h w rows -> length (concat rows) = h * w.
Proof. intros [<- Hw]. apply length_concat_rows, Hw. Qed.

Lemma rect_chunks_concat h w rows : rect h w rows -> chunks h w (concat rows) = rows.
Proof. intros [<- Hw]. apply chunks_concat, Hw. Qed.

Lemma rect_zip_cons h r cols :
  length r = length cols ->
  Forall (fun c => length c = h) cols ->
  rect (length r) (S h) (zip_cons r cols).
Proof.
  revert cols; induction r as [|x r IH]; intros [|c cols] Hlen Hcols;
    try discriminate; simpl.
  - split; [reflexivity | constructor].
  - inversion Hcols as [|? ? Hc Hcols']; subst.
    destruct (IH cols) as [IH1 IH2]; [simpl in Hlen; lia | assumption |].
    split; [simpl; rewrite IH1; reflexivity|].
    constructor; [reflexivity | exact IH2].
Qed.

Lemma rect_columns h w rows : rect h w rows -> rect w h (columns w rows).
Proof.
  intros [Hh Hw]. revert h Hh.
  induction Hw as [|r rows Hr _ IH]; intros h Hh; simpl in *; subst h.
  - split; [apply repeat_length|].
    induction w; simpl; constructor; [reflexivity | assumption].
  - destruct (IH _ eq_refl) as [IH1 IH2].
    rewrite <- Hr at 1. apply rect_zip_cons; [rewrite IH1, Hr; reflexivity | exact IH2].
Qed.

Lemma columns_zip_cons h r cols :
  length r = length cols ->
  columns (S h) (zip_cons r cols) = r :: columns h cols.
Proof.
  revert cols; induction r as [|x r IH]; intros [|c cols] Hlen;
    try discriminate; simpl; [reflexivity|].
  rewrite IH by (simpl in Hlen; lia). reflexivity.
Qed.

Lemma columns_0 rows : columns 0 rows = [].
Proof.
  induction rows as [|r rows IH]; simpl; [reflexivity|].
  rewrite IH. destruct r; reflexivity.
Qed.

(** Transposing twice gives the matrix back. *)
Lemma columns_involutive h w rows :
  rect h w rows -> columns h (columns w rows) = rows.
Proof.
  intros [Hh Hw]. revert h Hh.
  induction Hw as [|r rows Hr Hw IH]; intros h Hh; simpl in *; subst h.
  - destruct w; reflexivity.
  - destruct (rect_columns (length rows) w rows) as [Hc _]; [split; auto|].
    rewrite columns_zip_cons by lia.
    rewrite IH by reflexivity. reflexivity.
Qed.

Lemma zip_cons_snoc r0 cols r :
  zip_cons r0 (zip_snoc cols r) = zip_snoc (zip_cons r0 cols) r.
Proof.
  revert cols r; induction r0 as [|x r0 IH]; intros [|c cols] [|y r];
    simpl; try reflexivity.
  rewrite IH. reflexivity.
Qed.

Lemma zip_cons_repeat r : zip_cons r (repeat [] (length r)) = zip_snoc (repeat [] (length r)) r.
Proof. induction r as [|x r IH]; simpl; [|rewrite IH]; reflexivity. Qed.

Lemma columns_snoc w rows r :
  length r = w -> columns w (rows ++ [r]) = zip_snoc (columns w rows) r.
Proof.
  intros <-. induction rows as [|r0 rows IH]; simpl.
  - apply zip_cons_repeat.
  - rewrite IH. apply zip_cons_snoc.
Qed.

Lemma map_rev_zip_cons r cols :
  map (@rev A) (zip_cons r cols) = zip_snoc (map (@rev A) cols) r.
Proof.
  revert cols; induction r as [|x r IH]; intros [|c cols]; simpl; try reflexivity.
  rewrite IH. reflexivity.
Qed.

(** The transpose of a matrix read bottom-up has its rows reversed. *)
Lemma columns_rev h w rows :
  rect h w rows -> columns w (rev rows) = map (@rev A) (columns w rows).
Proof.
  intros [_ Hw].
  induction Hw as [|r rows Hr _ IH]; simpl.
  - rewrite map_repeat. reflexivity.
  - rewrite columns_snoc by exact Hr.
    rewrite IH, map_rev_zip_cons. reflexivity.
Qed.

End Matrices.

(** ** Arrays as stacks of planes *)

Section Planes.
Context {A : Type}.
Implicit Types (m : ndarray A) (lead : list nat) (rows : list (list A)).

Lemma size_of_app (s1 s2 : list nat) : size_of (s1 ++ s2) = size_of s1 * size_of s2.
Proof.
  induction s1 as [|d s1 IH]; simpl; [lia|].
  fold (size_of (s1 ++ s2)) (size_of s1). rewrite IH. lia.
Qed.

Lemma size_of_planes lead h w : size_of (lead ++ [h; w]) = size_of lead * (h * w).
Proof. rewrite size_of_app. simpl. lia. Qed.

Lemma shape_split m : 2 <= ndim m -> exists lead h w, shape m = lead ++ [h; w].
Proof.
  unfold ndim. intros Hn.
  destruct (rev (shape m)) as [|w [|h rl]] eqn:Hrev.
  - apply (f_equal (@length nat)) in Hrev. rewrite length_rev in Hrev. simpl in Hrev. lia.
  - apply (f_equal (@length nat)) in Hrev. rewrite length_rev in Hrev. simpl in Hrev. lia.
  - exists (rev rl), h, w.
    rewrite <- (rev_involutive (shape m)), Hrev. simpl.
    rewrite <- app_assoc. reflexivity.
Qed.

Lemma split_last2_app lead h w : split_last2 (lead ++ [h; w]) = Some (lead, h, w).
Proof.
  unfold split_last2. rewrite rev_app_distr. simpl. rewrite rev_involutive. reflexivity.
Qed.

Lemma normalize_axis_last nd : 1 <= nd -> normalize_axis (-1) nd = Ok (nd - 1).
Proof.
  intros Hn. unfold normalize_axis.
  destruct (Z.ltb_spec (-1) (- Z.of_nat nd)); [lia|].
  destruct (Z.leb_spec (Z.of_nat nd) (-1)); [lia|].
  simpl. f_equal. lia.
Qed.

Lemma normalize_axis_rows nd : 2 <= nd -> normalize_axis (-2) nd = Ok (nd - 2).
Proof.
  intros Hn. unfold normalize_axis.
  destruct (Z.ltb_spec (-2) (- Z.of_nat nd)); [lia|].
  destruct (Z.leb_spec (Z.of_nat nd) (-2)); [lia|].
  simpl. f_equal. lia.
Qed.

Lemma firstn_lead lead h w : firstn (length lead) (lead ++ [h; w]) = lead.
Proof. induction lead; simpl; congruence. Qed.

Lemma nth_lead lead h w : nth (length lead) (lead ++ [h; w]) 0 = h.
Proof. induction lead; simpl; congruence. Qed.

Lemma skipn_lead lead h w : skipn (S (length lead)) (lead ++ [h; w]) = [w].
Proof. induction lead; simpl in *; congruence. Qed.

Lemma firstn_lead_S lead h w : firstn (S (length lead)) (lead ++ [h; w]) = lead ++ [h].
Proof. induction lead; simpl in *; congruence. Qed.

Lemma nth_lead_S lead h w : nth (S (length lead)) (lead ++ [h; w]) 0 = w.
Proof. induction lead; simpl in *; congruence. Qed.

Lemma skipn_lead_S lead h w : skipn (S (S (length lead))) (lead ++ [h; w]) = [].
Proof. induction lead; simpl in *; congruence. Qed.

(** [np.flip(m, -1)] reverses every row of every plane. *)
Lemma np_flip_last lead h w m :
  shape m = lead ++ [h; w] -> wf_ndarray m ->
  np_flip m (-1) = Ok (on_planes lead h w h w (map (@rev A)) m).
Proof.
  intros Hs Hwf. unfold np_flip, ndim, on_planes.
  rewrite normalize_axis_last by (rewrite Hs, length_app; simpl; lia).
  simpl. rewrite Hs, length_app. simpl length.
  replace (length lead + 2 - 1) with (S (length lead)) by lia.
  rewrite firstn_lead_S, nth_lead_S, skipn_lead_S.
  do 2 f_equal.
  rewrite size_of_app. simpl size_of. rewrite !Nat.mul_1_r.
  rewrite map_blocks_rows.
  red in Hwf. rewrite Hs, size_of_planes in Hwf.
  apply map_blocks_ext; [lia|].
  intros blk Hblk. f_equal.
  apply map_ext_Forall.
  eapply Forall_impl; [apply chunks_row_length; lia|].
  intros r Hr; simpl. apply flip_row, Hr.
Qed.

(** [np.flip(m, -2)] reverses the order of the rows of every plane. *)
Lemma np_flip_rows lead h w m :
  shape m = lead ++ [h; w] ->
  np_flip m (-2) = Ok (on_planes lead h w h w (@rev (list A)) m).
Proof.
  intros Hs. unfold np_flip, ndim, on_planes.
  rewrite normalize_axis_rows by (rewrite Hs, length_app; simpl; lia).
  simpl. rewrite Hs, length_app. simpl length.
  replace (length lead + 2 - 2) with (length lead) by lia.
  rewrite firstn_lead, nth_lead, skipn_lead.
  simpl size_of. rewrite !Nat.mul_1_r. reflexivity.
Qed.

Lemma np_transpose_planes lead h w m :
  shape m = lead ++ [h; w] ->
  np_transpose_last2 m = Ok (on_planes lead h w w h (columns w) m).
Proof.
  intros Hs. unfold np_transpose_last2. rewrite Hs, split_last2_app. reflexivity.
Qed.

Lemma on_planes_wf lead h w h' w' g m :
  shape m = lead ++ [h; w] -> wf_ndarray m ->
  (forall rows, rect h w rows -> rect h' w' (g rows)) ->
  wf_ndarray (on_planes lead h w h' w' g m).
Proof.
  intros Hs Hwf Hg. red in Hwf. rewrite Hs, size_of_planes in Hwf.
  unfold wf_ndarray, on_planes; simpl shape; simpl data.
  rewrite size_of_planes.
  apply length_map_blocks; [lia|].
  intros blk Hblk. apply rect_concat, Hg, rect_chunks. lia.
Qed.

Lemma on_planes_compose lead h w h1 w1 h2 w2 g1 g2 m :
  shape m = lead ++ [h; w] -> wf_ndarray m ->
  (forall rows, rect h w rows -> rect h1 w1 (g1 rows)) ->
  on_planes lead h1 w1 h2 w2 g2 (on_planes lead h w h1 w1 g1 m) =
  on_planes lead h w h2 w2 (fun rows => g2 (g1 rows)) m.
Proof.
  intros Hs Hwf Hg. red in Hwf. rewrite Hs, size_of_planes in Hwf.
  unfold on_planes; simpl data. f_equal.
  rewrite (map_blocks_compose _ (h * w) (h1 * w1)); [|lia|].
  - apply map_blocks_ext; [lia|].
    intros blk Hblk. rewrite (rect_chunks_concat h1 w1); [reflexivity|].
    apply Hg, rect_chunks. lia.
  - intros blk Hblk. apply rect_concat, Hg, rect_chunks. lia.
Qed.

Lemma on_planes_ext lead h w h' w' g g' m :
  shape m = lead ++ [h; w] -> wf_ndarray m ->
  (forall rows, rect h w rows -> g rows = g' rows) ->
  on_planes lead h w h' w' g m = on_planes lead h w h' w' g' m.
Proof.
  intros Hs Hwf Hg. red in Hwf. rewrite Hs, size_of_planes in Hwf.
  unfold on_planes. f_equal.
  apply map_blocks_ext; [lia|].
  intros blk Hblk. rewrite Hg; [reflexivity | apply rect_chunks; lia].
Qed.

Lemma on_planes_id lead h w g m :
  shape m = lead ++ [h; w] -> wf_ndarray m ->
  (forall rows, rect h w rows -> g rows = rows) ->
  on_planes lead h w h w g m = m.
Proof.
  intros Hs Hwf Hg. red in Hwf. rewrite Hs, size_of_planes in Hwf.
  destruct m as [s d]; simpl in *; subst s.
  unfold on_planes; simpl data. f_equal.
  apply map_blocks_id; [lia|].
  intros blk Hblk. rewrite Hg by (apply rect_chunks; lia).
  apply concat_chunks. lia.
Qed.

Lemma mod4_cases (k : Z) :
  (k mod 4 = 0 \/ k mod 4 = 1 \/ k mod 4 = 2 \/ k mod 4 = 3)%Z.
Proof. pose proof (Z.mod_pos_bound k 4). lia. Qed.

Lemma odd_mod4 (k : Z) : Z.odd k = Z.odd (k mod 4).
Proof.
  rewrite (Z.div_mod k 4) at 1 by lia.
  replace (4 * (k / 4) + k mod 4)%Z with (k mod 4 + 2 * (2 * (k / 4)))%Z by lia.
  apply Z.odd_add_mul_2.
Qed.

Lemma rot_rows_rect k h w rows :
  rect h w rows ->
  rect (fst (rot_dims k h w)) (snd (rot_dims k h w)) (rot_rows k w rows).
Proof.
  intros Hr. unfold rot_dims, rot_rows. rewrite odd_mod4.
  destruct (mod4_cases k) as [Hk|[Hk|[Hk|Hk]]]; rewrite Hk; simpl.
  - exact Hr.
  - apply rect_columns, rect_map_rev, Hr.
  - apply rect_map_rev, rect_rev, Hr.
  - apply rect_map_rev, rect_columns, Hr.
Qed.

(** [np.rot90] acts on every plane as [rot_rows] does on its rows. *)
Lemma np_rot90_planes lead h w m k :
  shape m = lead ++ [h; w] -> wf_ndarray m ->
  np_rot90 m k =
  Ok (on_planes lead h w (fst (rot_dims k h w)) (snd (rot_dims k h w))
        (rot_rows k w) m).
Proof.
  intros Hs Hwf. unfold np_rot90, ndim.
  rewrite Hs, length_app. simpl length.
  replace (length lead + 2 <? 2) with false by (symmetry; apply Nat.ltb_ge; lia).
  unfold rot_dims, rot_rows. rewrite odd_mod4. cbv zeta.
  destruct (mod4_cases k) as [Hk|[Hk|[Hk|Hk]]]; rewrite Hk; simpl.
  - rewrite on_planes_id; auto.
  - rewrite (np_flip_last lead h w) by assumption. simpl.
    rewrite (np_transpose_planes lead h w) by reflexivity.
    rewrite on_planes_compose; auto using rect_map_rev.
  - rewrite (np_flip_rows lead h w) by assumption. simpl.
    rewrite (np_flip_last lead h w);
      [|reflexivity|apply on_planes_wf; auto using rect_rev].
    rewrite on_planes_compose; auto using rect_rev.
  - rewrite (np_transpose_planes lead h w) by assumption. simpl.
    rewrite (np_flip_last lead w h);
      [|reflexivity|apply on_planes_wf; auto using rect_columns].
    rewrite on_planes_compose; auto using rect_columns.
Qed.

Lemma far_rows_rect r f h w rows :
  rect h w rows ->
  rect (fst (rot_dims r h w)) (snd (rot_dims r h w)) (far_rows r f w rows).
Proof.
  intros Hr. unfold far_rows. cbv zeta.
  destruct (f =? 1)%Z; [apply rect_map_rev|]; apply rot_rows_rect, Hr.
Qed.

(** [_flip_and_rotate] acts on every plane as [far_rows] does on its rows. *)
Lemma far_planes lead h w m r f :
  shape m = lead ++ [h; w] -> wf_ndarray m ->
  _flip_and_rotate m r f =
  Ok (on_planes lead h w (fst (rot_dims r h w)) (snd (rot_dims r h w))
        (far_rows r f w) m).
Proof.
  intros Hs Hwf. unfold _flip_and_rotate.
  rewrite (np_rot90_planes lead h w) by assumption. simpl result_bind.
  unfold far_rows. cbv zeta.
  destruct (f =? 1)%Z; [|reflexivity].
  rewrite (np_flip_last lead (fst (rot_dims r h w)) (snd (rot_dims r h w)));
    [|reflexivity|apply on_planes_wf; auto using rot_rows_rect].
  simpl result_bind.
  rewrite on_planes_compose; auto using rot_rows_rect.
Qed.

Lemma far_wf lead h w m r f :
  shape m = lead ++ [h; w] -> wf_ndarray m ->
  wf_ndarray (on_planes lead h w (fst (rot_dims r h w)) (snd (rot_dims r h w))
                (far_rows r f w) m).
Proof. intros Hs Hwf. apply on_planes_wf; auto using far_rows_rect. Qed.

End Planes.

(** ** The algebra of quarter turns and flips *)

Section Turns.
Context {A : Type}.
Implicit Types (x : ndarray A) (rows : list (list A)).

Lemma map_rev_involutive rows : map (@rev A) (map (@rev A) rows) = rows.
Proof.
  rewrite map_map. rewrite <- (map_id rows) at 2.
  apply map_ext. intros r. apply rev_involutive.
Qed.

(** One more quarter turn of a plane that was turned [k] times. *)
Lemma rot_rows_succ k h w rows :
  rect h w rows ->
  rot_rows 1 (snd (rot_dims k h w)) (rot_rows k w rows) = rot_rows (k + 1) w rows.
Proof.
  intros Hr. unfold rot_dims, rot_rows. rewrite odd_mod4, (Z.add_mod k 1) by lia.
  destruct (mod4_cases k) as [Hk|[Hk|[Hk|Hk]]]; rewrite Hk; simpl.
  - reflexivity.
  - rewrite <- (columns_rev h w) by (apply rect_map_rev, Hr).
    rewrite (columns_involutive h w) by (apply rect_rev, rect_map_rev, Hr).
    rewrite map_rev. reflexivity.
  - rewrite map_rev_involutive. apply (columns_rev h w), Hr.
  - rewrite map_rev_involutive. apply (columns_involutive h w), Hr.
Qed.

Lemma rot_dims_succ k h w :
  rot_dims 1 (fst (rot_dims k h w)) (snd (rot_dims k h w)) = rot_dims (k + 1) h w.
Proof.
  unfold rot_dims. rewrite Z.odd_add. simpl (Z.odd 1).
  destruct (Z.odd k); reflexivity.
Qed.

Lemma far_rows_turn k w rows : far_rows k 0 w rows = rot_rows k w rows.
Proof. reflexivity. Qed.

(** [n] quarter turns are one call with [rotate_state = n]. *)
Lemma quarter_turns_planes lead h w x n :
  shape x = lead ++ [h; w] -> wf_ndarray x ->
  quarter_turns n x =
  Ok (on_planes lead h w (fst (rot_dims (Z.of_nat n) h w))
        (snd (rot_dims (Z.of_nat n) h w)) (rot_rows (Z.of_nat n) w) x).
Proof.
  intros Hs Hwf. induction n as [|n IH].
  - simpl. rewrite on_planes_id; auto.
  - unfold quarter_turns in *. simpl Nat.iter. rewrite IH. simpl result_bind.
    set (k := Z.of_nat n).
    rewrite (far_planes lead (fst (rot_dims k h w)) (snd (rot_dims k h w)));
      [|reflexivity|apply on_planes_wf; auto using rot_rows_rect].
    rewrite on_planes_compose; auto using rot_rows_rect.
    rewrite rot_dims_succ.
    replace (Z.of_nat (S n)) with (k + 1)%Z by lia.
    f_equal. apply on_planes_ext; auto.
    intros rows Hr. rewrite far_rows_turn. apply (rot_rows_succ k h w), Hr.
Qed.

End Turns.

(** ** Properties of [_flip_and_rotate] *)

Section Primitive.
Context {A : Type}.
Implicit Types (x y : ndarray A) (r f : Z).

Lemma far_periodic x r f : _flip_and_rotate x r f = _flip_and_rotate x (r mod 4) f.
Proof. unfold _flip_and_rotate, np_rot90. rewrite Z.mod_mod by lia. reflexivity. Qed.

Lemma far_flag x r f :
  _flip_and_rotate x r f = _flip_and_rotate x r (if (f =? 1)%Z then 1 else 0)%Z.
Proof. unfold _flip_and_rotate. destruct (f =? 1)%Z; reflexivity. Qed.

Lemma far_few_dims x r f : ndim x < 2 -> _flip_and_rotate x r f = Raise ValueError.
Proof.
  intros Hn. unfold _flip_and_rotate, np_rot90.
  replace (ndim x <? 2) with true by (symmetry; apply Nat.ltb_lt; exact Hn).
  reflexivity.
Qed.

Lemma np_flip_last_shape x :
  1 <= ndim x -> exists d, np_flip x (-1) = Ok {| shape := shape x; data := d |}.
Proof.
  intros Hn. unfold np_flip. rewrite normalize_axis_last by exact Hn.
  simpl. eexists. reflexivity.
Qed.

Lemma np_flip_rows_shape x :
  2 <= ndim x -> exists d, np_flip x (-2) = Ok {| shape := shape x; data := d |}.
Proof.
  intros Hn. unfold np_flip. rewrite normalize_axis_rows by exact Hn.
  simpl. eexists. reflexivity.
Qed.

Lemma ndim_planes (s : list nat) (d : list A) lead h w :
  s = lead ++ [h; w] -> 2 <= ndim {| shape := s; data := d |}.
Proof. intros ->. unfold ndim. simpl. rewrite length_app. simpl. lia. Qed.

Lemma np_rot90_shape x lead h w k :
  shape x = lead ++ [h; w] ->
  exists d, np_rot90 x k =
            Ok {| shape := lead ++ [fst (rot_dims k h w); snd (rot_dims k h w)];
                  data := d |}.
Proof.
  intros Hs.
  assert (Hn : 2 <= ndim x) by (destruct x; simpl in Hs; eapply ndim_planes, Hs).
  unfold np_rot90.
  replace (ndim x <? 2) with false by (symmetry; apply Nat.ltb_ge; exact Hn).
  unfold rot_dims. rewrite odd_mod4. cbv zeta.
  destruct (mod4_cases k) as [Hk|[Hk|[Hk|Hk]]]; rewrite Hk; simpl.
  - exists (data x). destruct x; simpl in *; subst; reflexivity.
  - destruct (np_flip_last_shape x) as [d ->]; [lia|]. simpl.
    rewrite (np_transpose_planes lead h w) by exact Hs.
    eexists. reflexivity.
  - destruct (np_flip_rows_shape x) as [d ->]; [lia|]. simpl.
    destruct (np_flip_last_shape {| shape := shape x; data := d |}) as [d' ->];
      [unfold ndim in *; simpl; lia|].
    rewrite Hs. eexists. reflexivity.
  - rewrite (np_transpose_planes lead h w) by exact Hs. simpl.
    match goal with |- context [np_flip ?t _] =>
      destruct (np_flip_last_shape t) as [d' ->] end.
    { unfold ndim; simpl. rewrite length_app; simpl; lia. }
    eexists. reflexivity.
Qed.

Lemma far_shape x lead h w r f :
  shape x = lead ++ [h; w] ->
  exists d, _flip_and_rotate x r f =
            Ok {| shape := lead ++ [fst (rot_dims r h w); snd (rot_dims r h w)];
                  data := d |}.
Proof.
  intros Hs. unfold _flip_and_rotate.
  destruct (np_rot90_shape x lead h w r Hs) as [d ->]. simpl result_bind.
  destruct (f =? 1)%Z.
  - match goal with |- context [np_flip ?t _] =>
      destruct (np_flip_last_shape t) as [d' ->] end.
    { unfold ndim; simpl. rewrite length_app; simpl; lia. }
    eexists. reflexivity.
  - eexists. reflexivity.
Qed.

Lemma far_returns x r f : 2 <= ndim x -> exists y, _flip_and_rotate x r f = Ok y.
Proof.
  intros Hn. destruct (shape_split x Hn) as (lead & h & w & Hs).
  destruct (far_shape x lead h w r f Hs) as [d Hd]. eexists. exact Hd.
Qed.

End Primitive.

(** ** Sub-arrays along the first axis *)

Section SubArrays.
Context {A : Type}.
Implicit Types (x y : ndarray A) (l blk : list A) (rows : list (list A)).

Lemma slice_concat n rows i blk :
  Forall (fun r => length r = n) rows ->
  rows !! i = Some blk ->
  firstn n (skipn (i * n) (concat rows)) = blk.
Proof.
  intros Hrows. revert i.
  induction Hrows as [|r rows Hr _ IH]; intros [|i] Hi; simpl in *; try discriminate.
  - injection Hi as ->. apply take_app_length'. symmetry; exact Hr.
  - rewrite <- drop_drop, drop_app_length' by (symmetry; exact Hr).
    apply IH, Hi.
Qed.

Lemma chunks_lookup d n l i :
  i < d -> chunks d n l !! i = Some (firstn n (skipn (i * n) l)).
Proof.
  revert l i; induction d as [|d IH]; intros l [|i] Hi; simpl; try lia.
  - reflexivity.
  - rewrite IH by lia. rewrite drop_drop. reflexivity.
Qed.

(** The [i]-th group of [a] blocks is rewritten on its own. *)
Lemma map_blocks_slice d a sz sz' (F : list A -> list A) l i :
  length l = d * (a * sz) ->
  (forall blk, length blk = sz -> length (F blk) = sz') ->
  i < d ->
  firstn (a * sz') (skipn (i * (a * sz')) (map_blocks (d * a) sz F l)) =
  map_blocks a sz F (firstn (a * sz) (skipn (i * (a * sz)) l)).
Proof.
  intros Hl HF Hi. rewrite map_blocks_rows.
  apply slice_concat.
  - apply Forall_map.
    eapply Forall_impl; [apply chunks_row_length; lia|].
    intros blk Hblk; simpl in Hblk |- *.
    apply (length_map_blocks a sz sz' F); [lia | exact HF].
  - rewrite list_lookup_fmap, chunks_lookup by exact Hi. reflexivity.
Qed.

Lemma far_subarray d lead h w x r f i :
  shape x = d :: lead ++ [h; w] -> wf_ndarray x -> i < d ->
  (let? y := _flip_and_rotate x r f in subarray y i)%result =
  (let? xi := subarray x i in _flip_and_rotate xi r f)%result.
Proof.
  intros Hs Hwf Hi.
  rewrite (far_planes (d :: lead) h w) by assumption.
  unfold subarray at 2. rewrite Hs.
  replace (i <? d) with true by (symmetry; apply Nat.ltb_lt; exact Hi).
  simpl result_bind.
  red in Hwf. rewrite Hs in Hwf. change (d :: lead ++ [h; w]) with ((d :: lead) ++ [h; w]) in Hwf.
  rewrite size_of_planes in Hwf. simpl size_of in Hwf. fold (size_of lead) in Hwf.
  rewrite (far_planes lead h w); [|reflexivity|].
  - unfold subarray, on_planes. cbn [shape data app].
    replace (i <? d) with true by (symmetry; apply Nat.ltb_lt; exact Hi).
    do 2 f_equal.
    rewrite !size_of_planes. simpl size_of. fold (size_of lead).
    apply map_blocks_slice; [lia| |exact Hi].
    intros blk Hblk. apply rect_concat, far_rows_rect, rect_chunks. lia.
  - red. simpl. rewrite size_of_planes, length_firstn, length_skipn. nia.
Qed.

End SubArrays.

(** ** Entries of a turned matrix *)

Section Entries.
Context {A : Type}.
Implicit Types (x y : ndarray A) (l r : list A) (rows cols : list (list A)).

Lemma rev_lookup l i : i < length l -> rev l !! i = l !! (length l - S i).
Proof. intros Hi. rewrite rev_alt. exact (reverse_lookup l i Hi). Qed.

Lemma repeat_lookup {T : Type} (v : T) n i : i < n -> repeat v n !! i = Some v.
Proof.
  revert i; induction n as [|n IH]; intros [|i] Hi; simpl; try lia; [reflexivity|].
  apply IH. lia.
Qed.

Lemma concat_lookup w rows i j :
  Forall (fun r => length r = w) rows -> j < w ->
  concat rows !! (i * w + j) = rows !! i ≫= (fun r => r !! j).
Proof.
  intros Hrows Hj. revert i.
  induction Hrows as [|r rows Hr _ IH]; intros [|i]; simpl; try reflexivity.
  - apply lookup_app_l. lia.
  - rewrite lookup_app_r by lia.
    replace (w + i * w + j - length r) with (i * w + j) by lia. apply IH.
Qed.

Lemma zip_cons_lookup r cols i :
  zip_cons r cols !! i =
  match r !! i, cols !! i with
  | Some v, Some c => Some (v :: c)
  | _, _ => None
  end.
Proof.
  revert cols i; induction r as [|a r IH]; intros [|c cols] [|i]; simpl;
    try reflexivity.
  - destruct (r !! i); reflexivity.
  - apply IH.
Qed.

(** Entry [j] of column [i] is entry [i] of row [j]. *)
Lemma columns_lookup h w rows i j :
  rect h w rows -> i < w ->
  columns w rows !! i ≫= (fun c => c !! j) = rows !! j ≫= (fun r => r !! i).
Proof.
  intros [Hh Hw] Hi. revert h Hh j.
  induction Hw as [|r rows Hr Hw IH]; intros h Hh j; simpl.
  - rewrite repeat_lookup by exact Hi. reflexivity.
  - rewrite zip_cons_lookup.
    destruct (lookup_lt_is_Some_2 r i) as [v Hv]; [lia|]. rewrite Hv.
    destruct (columns w rows !! i) as [c|] eqn:Hc.
    + destruct j as [|j]; simpl; [rewrite Hv; reflexivity|].
      rewrite <- (IH _ eq_refl j). reflexivity.
    + apply lookup_ge_None_1 in Hc.
      destruct (rect_columns (length rows) w rows) as [Hlen _]; [split; auto|]. lia.
Qed.

(** A counter-clockwise quarter turn of an [h] x [w] matrix: entry [(i, j)]
    of the result is entry [(j, w - 1 - i)] of the matrix. *)
Lemma quarter_turn_entry h w x i j :
  shape x = [h; w] -> wf_ndarray x -> i < w -> j < h ->
  exists y, _flip_and_rotate x 1 0 = Ok y /\ shape y = [w; h] /\
            get2 y i j = get2 x j (w - 1 - i).
Proof.
  intros Hs Hwf Hi Hj.
  eexists. split; [apply (far_planes [] h w); assumption|].
  split; [reflexivity|].
  red in Hwf. rewrite Hs in Hwf.
  change [h; w] with ([] ++ [h; w]) in Hwf. rewrite size_of_planes in Hwf.
  change (size_of []) with 1 in Hwf.
  unfold get2, on_planes. rewrite Hs. cbn [shape data app fst snd rot_dims Z.odd].
  replace ((i <? w) && (j <? h)) with true
    by (symmetry; apply andb_true_iff; split; apply Nat.ltb_lt; lia).
  replace ((j <? h) && (w - 1 - i <? w)) with true
    by (symmetry; apply andb_true_iff; split; apply Nat.ltb_lt; lia).
  unfold map_blocks. simpl size_of. simpl chunks. simpl map. simpl concat.
  rewrite app_nil_r, chunks_firstn. change (far_rows 1 0 w) with (rot_rows (A:=A) 1 w).
  change (rot_rows 1 w (chunks h w (data x)))
    with (columns w (map (@rev A) (chunks h w (data x)))).
  assert (Hrect : rect h w (map (@rev A) (chunks h w (data x)))).
  { apply rect_map_rev, rect_chunks. lia. }
  rewrite (concat_lookup h); [|apply (rect_columns h w), Hrect|exact Hj].
  rewrite (columns_lookup h w) by assumption.
  rewrite list_lookup_fmap, chunks_lookup by exact Hj. simpl.
  assert (Hrow : j * w + w <= length (data x)) by nia.
  rewrite rev_lookup by (rewrite length_firstn, length_skipn; lia).
  rewrite length_firstn, length_skipn.
  rewrite lookup_take_lt by lia. rewrite lookup_drop.
  f_equal. lia.
Qed.

End Entries.

(** ** Entries of a transformed array of any dimension *)

Section EntriesAnyDim.
Context {A : Type}.
Implicit Types (x y : ndarray A) (lead ls idx : list nat).

Lemma subarray_ok d (s : list nat) x i :
  shape x = d :: s -> i < d ->
  subarray x i =
  Ok {| shape := s; data := firstn (size_of s) (skipn (i * size_of s) (data x)) |}.
Proof.
  intros Hs Hi. unfold subarray. rewrite Hs.
  replace (i <? d) with true by (symmetry; apply Nat.ltb_lt; exact Hi).
  reflexivity.
Qed.

Lemma subarray_wf d (s : list nat) x i :
  shape x = d :: s -> wf_ndarray x -> i < d ->
  wf_ndarray {| shape := s;
                data := firstn (size_of s) (skipn (i * size_of s) (data x)) |}.
Proof.
  intros Hs Hwf Hi. red in Hwf. rewrite Hs in Hwf. simpl in Hwf.
  fold (size_of s) in Hwf.
  red. simpl. rewrite length_firstn, length_skipn. nia.
Qed.

(** On a matrix, [get] with two indices is [get2]. *)
Lemma get_get2 h w x a b : shape x = [h; w] -> get x [a; b] = get2 x a b.
Proof.
  intros Hs. unfold get, get2, subarray. rewrite Hs.
  destruct (Nat.ltb_spec a h) as [Ha|Ha]; [|reflexivity]. simpl.
  destruct (Nat.ltb_spec b w) as [Hb|Hb]; [|reflexivity]. simpl.
  rewrite lookup_take_lt by lia. rewrite lookup_drop.
  rewrite lookup_take_lt by lia. rewrite lookup_drop.
  f_equal. lia.
Qed.

(** What a call does to the entries of a matrix, it does to the entries of
    every plane of a larger array. *)
Lemma far_get_lift r f h w idx idx' :
  (forall x, shape x = [h; w] -> wf_ndarray x ->
     exists y, _flip_and_rotate x r f = Ok y /\ get y idx' = get x idx) ->
  forall ls lead x,
    Forall2 lt ls lead -> shape x = lead ++ [h; w] -> wf_ndarray x ->
    exists y, _flip_and_rotate x r f = Ok y /\
              get y (ls ++ idx') = get x (ls ++ idx).
Proof.
  intros Hplane ls lead x Hls. revert x.
  induction Hls as [|l d ls lead Hl Hls IH]; intros x Hs Hwf.
  - apply Hplane; assumption.
  - simpl app in Hs.
    pose proof (far_subarray d lead h w x r f l Hs Hwf Hl) as Hsub.
    destruct (far_returns x r f) as [y Hy].
    { unfold ndim. rewrite Hs. simpl. rewrite length_app. simpl. lia. }
    rewrite Hy, (subarray_ok d (lead ++ [h; w])) in Hsub by assumption.
    simpl result_bind in Hsub.
    destruct (IH {| shape := lead ++ [h; w];
                    data := firstn (size_of (lead ++ [h; w]))
                              (skipn (l * size_of (lead ++ [h; w])) (data x)) |}
                 eq_refl (subarray_wf d _ x l Hs Hwf Hl)) as (yl & Hyl & Hget).
    exists y. split; [exact Hy|].
    simpl. rewrite Hsub, Hyl, (subarray_ok d (lead ++ [h; w])) by assumption.
    exact Hget.
Qed.

(** Entry [(i, j)] of a matrix mirrored along its last axis. *)
Lemma flip_entry h w x i j :
  shape x = [h; w] -> wf_ndarray x -> i < h -> j < w ->
  exists y, _flip_and_rotate x 0 1 = Ok y /\ shape y = [h; w] /\
            get2 y i j = get2 x i (w - 1 - j).
Proof.
  intros Hs Hwf Hi Hj.
  eexists. split; [apply (far_planes [] h w); assumption|].
  split; [reflexivity|].
  red in Hwf. rewrite Hs in Hwf.
  change [h; w] with ([] ++ [h; w]) in Hwf. rewrite size_of_planes in Hwf.
  change (size_of []) with 1 in Hwf.
  unfold get2, on_planes. rewrite Hs. cbn [shape data app fst snd rot_dims Z.odd].
  replace ((i <? h) && (j <? w)) with true
    by (symmetry; apply andb_true_iff; split; apply Nat.ltb_lt; lia).
  replace ((i <? h) && (w - 1 - j <? w)) with true
    by (symmetry; apply andb_true_iff; split; apply Nat.ltb_lt; lia).
  unfold map_blocks. simpl size_of. simpl chunks. simpl map. simpl concat.
  rewrite app_nil_r, chunks_firstn.
  change (far_rows 0 1 w (chunks h w (data x)))
    with (map (@rev A) (chunks h w (data x))).
  assert (Hrect : rect h w (chunks h w (data x))) by (apply rect_chunks; lia).
  rewrite (concat_lookup w); [|exact (proj2 (rect_map_rev h w _ Hrect))|exact Hj].
  rewrite list_lookup_fmap, chunks_lookup by exact Hi. simpl.
  assert (Hrow : i * w + w <= length (data x)) by nia.
  rewrite rev_lookup by (rewrite length_firstn, length_skipn; lia).
  rewrite length_firstn, length_skipn.
  rewrite lookup_take_lt by lia. rewrite lookup_drop. f_equal. lia.
Qed.

(** The quarter turn on an array of any dimension, entry by entry. *)
Lemma quarter_turn_get lead h w x ls i j :
  shape x = lead ++ [h; w] -> wf_ndarray x -> Forall2 lt ls lead ->
  i < w -> j < h ->
  exists y, _flip_and_rotate x 1 0 = Ok y /\
            get y (ls ++ [i; j]) = get x (ls ++ [j; w - 1 - i]).
Proof.
  intros Hs Hwf Hls Hi Hj.
  apply (fun Hp => far_get_lift 1 0 h w [j; w - 1 - i] [i; j] Hp ls lead x Hls Hs Hwf).
  intros x2 Hs2 Hwf2.
  destruct (quarter_turn_entry h w x2 i j Hs2 Hwf2 Hi Hj) as (y & Hy & Hsy & Hget).
  exists y. split; [exact Hy|].
  rewrite (get_get2 w h), (get_get2 h w) by assumption. exact Hget.
Qed.

(** The flip on an array of any dimension, entry by entry. *)
Lemma flip_get lead h w x ls i j :
  shape x = lead ++ [h; w] -> wf_ndarray x -> Forall2 lt ls lead ->
  i < h -> j < w ->
  exists y, _flip_and_rotate x 0 1 = Ok y /\
            get y (ls ++ [i; j]) = get x (ls ++ [i; w - 1 - j]).
Proof.
  intros Hs Hwf Hls Hi Hj.
  apply (fun Hp => far_get_lift 0 1 h w [i; w - 1 - j] [i; j] Hp ls lead x Hls Hs Hwf).
  intros x2 Hs2 Hwf2.
  destruct (flip_entry h w x2 i j Hs2 Hwf2 Hi Hj) as (y & Hy & Hsy & Hget).
  exists y. split; [exact Hy|].
  rewrite !(get_get2 h w) by assumption. exact Hget.
Qed.

End EntriesAnyDim.

(** ** The claims about [_flip_and_rotate] *)

(** C4.  Rotation comes first and the flip acts on the rotated array: a call
    with flip is the call without flip followed by a pure flip, and a call
    with [rotate_state = n] and no flip is [n] successive quarter turns
    ([rotate_state mod 4] of them for any integer).  The quarter turn is
    counter-clockwise and acts on the last two axes: [[1,2],[3,4]] becomes
    [[2,4],[1,3]] and [[5,6],[7,8]] becomes [[6,8],[5,7]] for
    [rotate_state = 1], [flip_state = 0], and for an array of any shape
    [lead ++ [h; w]] the result is a well-formed array of shape
    [lead ++ [w; h]] and its entry [(ls, i, j)] is entry
    [(ls, j, w - 1 - i)] of the array, for every leading index [ls].  The flip mirrors the last axis: the result has the
    shape of the array and its entry [(ls, i, j)] is entry
    [(ls, i, w - 1 - j)].  Flipping before turning would give another array. *)
Theorem rotate_then_flip :
  _flip_and_rotate patch22 1 0 = Ok {| shape := [2; 2]; data := [2; 4; 1; 3]%Z |} /\
  _flip_and_rotate target22 1 0 = Ok {| shape := [2; 2]; data := [6; 8; 5; 7]%Z |} /\
  _flip_and_rotate patch22 1 1 = Ok {| shape := [2; 2]; data := [4; 2; 3; 1]%Z |} /\
  (let? flipped := _flip_and_rotate patch22 0 1 in _flip_and_rotate flipped 1 0)%result
    = Ok {| shape := [2; 2]; data := [1; 3; 2; 4]%Z |} /\
  (forall (A : Type) (image : ndarray A) (r : Z),
     _flip_and_rotate image r 1 =
     (let? rotated := _flip_and_rotate image r 0 in
      _flip_and_rotate rotated 0 1)%result) /\
  (forall (A : Type) (image : ndarray A) (n : nat),
     wf_ndarray image -> 2 <= ndim image ->
     _flip_and_rotate image (Z.of_nat n) 0 = quarter_turns n image) /\
  (forall (A : Type) (image : ndarray A) (h w i j : nat),
     shape image = [h; w] -> wf_ndarray image -> i < w -> j < h ->
     exists y, _flip_and_rotate image 1 0 = Ok y /\ shape y = [w; h] /\
               get2 y i j = get2 image j (w - 1 - i)) /\
  (forall (A : Type) (image : ndarray A) (r : Z),
     wf_ndarray image -> 2 <= ndim image ->
     _flip_and_rotate image r 0 = quarter_turns (Z.to_nat (r mod 4)) image) /\
  (forall (A : Type) (image : ndarray A) (lead ls : list nat) (h w i j : nat),
     shape image = lead ++ [h; w] -> wf_ndarray image ->
     Forall2 lt ls lead -> i < w -> j < h ->
     exists y, _flip_and_rotate image 1 0 = Ok y /\ shape y = lead ++ [w; h] /\
               wf_ndarray y /\
               get y (ls ++ [i; j]) = get image (ls ++ [j; w - 1 - i])) /\
  (forall (A : Type) (image : ndarray A) (lead ls : list nat) (h w i j : nat),
     shape image = lead ++ [h; w] -> wf_ndarray image ->
     Forall2 lt ls lead -> i < h -> j < w ->
     exists y, _flip_and_rotate image 0 1 = Ok y /\ shape y = lead ++ [h; w] /\
               wf_ndarray y /\
               get y (ls ++ [i; j]) = get image (ls ++ [i; w - 1 - j])).
Proof.
  do 4 (split; [reflexivity|]). split; [|split; [|split; [|split; [|split]]]].
  - intros A image r.
    destruct (Nat.lt_ge_cases (ndim image) 2) as [Hn|Hn].
    + rewrite !far_few_dims by exact Hn. reflexivity.
    + destruct (shape_split image Hn) as (lead & h & w & Hs).
      unfold _flip_and_rotate at 1 2.
      destruct (np_rot90_shape image lead h w r Hs) as [d ->].
      simpl. unfold _flip_and_rotate, np_rot90, ndarray_copy. simpl shape.
      replace (ndim _ <? 2) with false; [reflexivity|].
      symmetry. apply Nat.ltb_ge. unfold ndim. simpl.
      rewrite length_app. simpl. lia.
  - intros A image n Hwf Hn.
    destruct (shape_split image Hn) as (lead & h & w & Hs).
    rewrite (far_planes lead h w), (quarter_turns_planes lead h w) by assumption.
    reflexivity.
  - intros A image h w i j. apply quarter_turn_entry.
  - intros A image r Hwf Hn.
    destruct (shape_split image Hn) as (lead & h & w & Hs).
    pose proof (Z.mod_pos_bound r 4 ltac:(lia)) as Hr.
    rewrite far_periodic.
    rewrite (far_planes lead h w), (quarter_turns_planes lead h w) by assumption.
    rewrite Z2Nat.id by lia. reflexivity.
  - intros A image lead ls h w i j Hs Hwf Hls Hi Hj.
    destruct (quarter_turn_get lead h w image ls i j Hs Hwf Hls Hi Hj)
      as (y & Hy & Hget).
    pose proof (far_planes lead h w image 1 0 Hs Hwf) as Hp.
    rewrite Hy in Hp. injection Hp as Hyeq.
    exists y. split; [exact Hy|].
    split; [rewrite Hyeq; reflexivity|].
    split; [rewrite Hyeq; apply far_wf; assumption | exact Hget].
  - intros A image lead ls h w i j Hs Hwf Hls Hi Hj.
    destruct (flip_get lead h w image ls i j Hs Hwf Hls Hi Hj)
      as (y & Hy & Hget).
    pose proof (far_planes lead h w image 0 1 Hs Hwf) as Hp.
    rewrite Hy in Hp. injection Hp as Hyeq.
    exists y. split; [exact Hy|].
    split; [rewrite Hyeq; reflexivity|].
    split; [rewrite Hyeq; apply far_wf; assumption | exact Hget].
Qed.

Lemma rotate_then_flip_witness :
  (wf_ndarray stack223 /\ 2 <= ndim stack223 /\
   _flip_and_rotate stack223 3 0 = quarter_turns 3 stack223) /\
  (shape target23 = [2; 3] /\ wf_ndarray target23 /\
   exists y, _flip_and_rotate target23 1 0 = Ok y /\ shape y = [3; 2] /\
             get2 y 0 1 = get2 target23 1 (3 - 1 - 0)) /\
  _flip_and_rotate stack223 (-1) 0 = quarter_turns (Z.to_nat (-1 mod 4)) stack223 /\
  (shape stack223 = [2] ++ [2; 3] /\ Forall2 lt [1] [2] /\
   exists y, _flip_and_rotate stack223 1 0 = Ok y /\ shape y = [2] ++ [3; 2] /\
             wf_ndarray y /\
             get y ([1] ++ [0; 1]) = get stack223 ([1] ++ [1; 3 - 1 - 0])) /\
  (exists y, _flip_and_rotate stack223 0 1 = Ok y /\ shape y = [2] ++ [2; 3] /\
             wf_ndarray y /\
             get y ([1] ++ [1; 0]) = get stack223 ([1] ++ [1; 3 - 1 - 0])).
Proof.
  destruct rotate_then_flip
    as (_ & _ & _ & _ & _ & Hturns & Hentry & Hmod & Hturn & Hflip).
  assert (Hls : Forall2 lt [1] [2]) by (repeat constructor).
  split; [|split; [|split; [|split]]].
  - split; [reflexivity|]. split; [dims|].
    apply (Hturns Z stack223 3%nat); [reflexivity | dims].
  - split; [reflexivity|]. split; [reflexivity|].
    apply (Hentry Z target23 2 3 0 1); [reflexivity | reflexivity | lia | lia].
  - apply (Hmod Z stack223 (-1)%Z); [reflexivity | dims].
  - split; [reflexivity|]. split; [exact Hls|].
    apply (Hturn Z stack223 [2] [1] 2 3 0 1);
      [reflexivity | reflexivity | exact Hls | lia | lia].
  - apply (Hflip Z stack223 [2] [1] 2 3 1 0);
      [reflexivity | reflexivity | exact Hls | lia | lia].
Defined.

(** C7.  Four successive calls with [rotate_state = 1] and [flip_state = 0]
    give back the array they started from, for every array with at least two
    dimensions. *)
Theorem four_quarter_turns {A : Type} (x : ndarray A) :
  wf_ndarray x -> 2 <= ndim x ->
  (let? a := _flip_and_rotate x 1 0 in
   let? b := _flip_and_rotate a 1 0 in
   let? c := _flip_and_rotate b 1 0 in
   _flip_and_rotate c 1 0)%result = Ok x.
Proof.
  intros Hwf Hn.
  destruct (shape_split x Hn) as (lead & h & w & Hs).
  pose proof (quarter_turns_planes lead h w x 4 Hs Hwf) as H4.
  unfold quarter_turns in H4. simpl Nat.iter in H4.
  destruct (_flip_and_rotate x 1 0) as [a|e]; simpl in *; [|discriminate].
  destruct (_flip_and_rotate a 1 0) as [b|e]; simpl in *; [|discriminate].
  destruct (_flip_and_rotate b 1 0) as [c|e]; simpl in *; [|discriminate].
  rewrite H4. f_equal. apply on_planes_id; auto.
Qed.

Lemma four_quarter_turns_witness :
  wf_ndarray stack223 /\ 2 <= ndim stack223 /\
  (let? a := _flip_and_rotate stack223 1 0 in
   let? b := _flip_and_rotate a 1 0 in
   let? c := _flip_and_rotate b 1 0 in
   _flip_and_rotate c 1 0)%result = Ok stack223.
Proof.
  split; [reflexivity|]. split; [dims|].
  apply (four_quarter_turns stack223); [reflexivity | dims].
Defined.

(** C8.  Two successive calls with [rotate_state = 0] and [flip_state = 1]
    give back the array they started from, for every array with at least two
    dimensions. *)
Theorem flip_twice {A : Type} (x : ndarray A) :
  wf_ndarray x -> 2 <= ndim x ->
  (let? a := _flip_and_rotate x 0 1 in _flip_and_rotate a 0 1)%result = Ok x.
Proof.
  intros Hwf Hn.
  destruct (shape_split x Hn) as (lead & h & w & Hs).
  rewrite (far_planes lead h w) by assumption. simpl result_bind.
  rewrite (far_planes lead h w); [|reflexivity|apply far_wf; assumption].
  rewrite on_planes_compose;
    [|assumption|assumption|intros rows Hr; apply (far_rows_rect 0 1 h w rows Hr)].
  f_equal. apply on_planes_id; auto.
  intros rows _. apply map_rev_involutive.
Qed.

Lemma flip_twice_witness :
  wf_ndarray stack223 /\ 2 <= ndim stack223 /\
  (let? a := _flip_and_rotate stack223 0 1 in _flip_and_rotate a 0 1)%result
  = Ok stack223.
Proof.
  split; [reflexivity|]. split; [dims|].
  apply (flip_twice stack223); [reflexivity | dims].
Defined.

(** C9.  For an array of shape [lead ++ [h; w]], square or not, the call
    returns an array of shape [lead ++ [w; h]] when [rotate_state] is 1 or 3
    (modulo 4) and of shape [lead ++ [h; w]] when it is 0 or 2; the leading
    axes keep their lengths, and along the first of them the result of the
    [i]-th sub-array is the [i]-th sub-array of the result. *)
Theorem far_last_two_axes {A : Type} (x : ndarray A) (lead : list nat) (h w : nat)
    (r f : Z) :
  shape x = lead ++ [h; w] -> wf_ndarray x ->
  exists y,
    _flip_and_rotate x r f = Ok y /\
    ((r mod 4 = 1 \/ r mod 4 = 3)%Z -> shape y = lead ++ [w; h]) /\
    ((r mod 4 = 0 \/ r mod 4 = 2)%Z -> shape y = lead ++ [h; w]) /\
    (forall d lead' i, lead = d :: lead' -> i < d ->
       (let? xi := subarray x i in _flip_and_rotate xi r f)%result = subarray y i).
Proof.
  intros Hs Hwf.
  eexists. split; [apply (far_planes lead h w); assumption|].
  unfold on_planes at 1 2. simpl shape. unfold rot_dims. rewrite odd_mod4.
  split; [|split].
  - intros [-> | ->]; reflexivity.
  - intros [-> | ->]; reflexivity.
  - intros d lead' i -> Hi.
    rewrite <- (far_subarray d lead' h w x r f i) by assumption.
    rewrite (far_planes (d :: lead') h w) by assumption.
    unfold rot_dims. rewrite odd_mod4. reflexivity.
Qed.

Lemma far_last_two_axes_witness :
  exists y,
    _flip_and_rotate stack223 1 1 = Ok y /\
    ((1 mod 4 = 1 \/ 1 mod 4 = 3)%Z -> shape y = [2] ++ [3; 2]) /\
    ((1 mod 4 = 0 \/ 1 mod 4 = 2)%Z -> shape y = [2] ++ [2; 3]) /\
    (forall d lead' i, [2] = d :: lead' -> i < d ->
       (let? xi := subarray stack223 i in _flip_and_rotate xi 1 1)%result
       = subarray y i).
Proof.
  apply (far_last_two_axes stack223 [2] 2 3 1 1); reflexivity.
Defined.

(** C6, as the code has it.  The primitive validates neither state: for every
    array with at least two dimensions and all integers [rotate_state] and
    [flip_state] it returns an array, the one it returns for
    [rotate_state mod 4] and for the flip flag [1] when [flip_state = 1] and
    [0] otherwise. *)
Theorem far_states_unchecked {A : Type} (x : ndarray A) (r f : Z) :
  2 <= ndim x ->
  exists y,
    _flip_and_rotate x r f = Ok y /\
    _flip_and_rotate x (r mod 4) (if (f =? 1)%Z then 1 else 0)%Z = Ok y /\
    (0 <= r mod 4 < 4)%Z.
Proof.
  intros Hn. destruct (far_returns x r f Hn) as [y Hy].
  exists y. split; [exact Hy|]. split.
  - rewrite <- far_flag, <- far_periodic. exact Hy.
  - apply Z.mod_pos_bound. lia.
Qed.

Lemma far_states_unchecked_witness :
  exists y,
    _flip_and_rotate patch22 5 7 = Ok y /\
    _flip_and_rotate patch22 (5 mod 4) (if (7 =? 1)%Z then 1 else 0)%Z = Ok y /\
    (0 <= 5 mod 4 < 4)%Z.
Proof.
  apply (far_states_unchecked patch22 5 7). dims.
Defined.

(** C6 as stated fails: states outside their ranges are accepted and a
    transformed array comes back. *)
Lemma far_states_unchecked_counterexample :
  _flip_and_rotate patch22 5 0 = Ok {| shape := [2; 2]; data := [2; 4; 1; 3]%Z |} /\
  _flip_and_rotate patch22 (-1) 0 = Ok {| shape := [2; 2]; data := [3; 1; 4; 2]%Z |} /\
  _flip_and_rotate patch22 0 7 = Ok patch22 /\
  ~ (forall (x : ndarray Z) (r f : Z),
       ~ (0 <= r < 4)%Z \/ ~ (0 <= f < 2)%Z ->
       exists e, _flip_and_rotate x r f = Raise e).
Proof.
  do 3 (split; [reflexivity|]).
  intros H. destruct (H patch22 5%Z 0%Z) as [e He]; [left; lia|].
  discriminate He.
Qed.

(** C10, as the code has it.  For every array and all integers
    [rotate_state] and [flip_state], the call is the call with
    [rotate_state mod 4]; a [flip_state] other than 1 means no flip; on an
    array with at least two dimensions the call returns an array; and on an
    array with fewer it raises [ValueError], whatever the states. *)
Theorem far_period_four {A : Type} (x : ndarray A) (r f : Z) :
  _flip_and_rotate x r f = _flip_and_rotate x (r mod 4) f /\
  (f <> 1%Z -> _flip_and_rotate x r f = _flip_and_rotate x r 0) /\
  (2 <= ndim x -> exists y, _flip_and_rotate x r f = Ok y) /\
  (ndim x < 2 -> _flip_and_rotate x r f = Raise ValueError).
Proof.
  split; [apply far_periodic|]. split; [|split].
  - intros Hf. rewrite far_flag.
    destruct (Z.eqb_spec f 1); [contradiction | reflexivity].
  - apply far_returns.
  - apply far_few_dims.
Qed.

Lemma far_period_four_witness :
  _flip_and_rotate target23 (-3) 2 = _flip_and_rotate target23 (-3 mod 4) 2 /\
  _flip_and_rotate target23 (-3) 2 = _flip_and_rotate target23 (-3) 0 /\
  (exists y, _flip_and_rotate target23 (-3) 2 = Ok y) /\
  _flip_and_rotate line3 (-3) 2 = Raise ValueError.
Proof.
  destruct (far_period_four target23 (-3) 2) as (H1 & H2 & H3 & _).
  destruct (far_period_four line3 (-3) 2) as (_ & _ & _ & H4).
  split; [exact H1|]. split; [apply H2; lia|].
  split; [apply H3; dims | apply H4; dims].
Defined.

(** C10 as stated fails on arrays with fewer than two dimensions: there the
    call raises, whatever the states are. *)
Lemma far_period_four_counterexample :
  _flip_and_rotate line3 1 0 = Raise ValueError /\
  ~ (forall (x : ndarray Z) (r f : Z), exists y, _flip_and_rotate x r f = Ok y).
Proof.
  split; [reflexivity|].
  intros H. destruct (H line3 1%Z 0%Z) as [y Hy]. discriminate Hy.
Qed.

(** ** Properties of [augment_batch] *)

Section Draws.
Context {G : BitGenerator}.

Lemma lookup_fresh {T : Type} (l : list T) (v : T) : (l ++ [v]) !! length l = Some v.
Proof. induction l; simpl; auto. Qed.

Lemma insert_fresh {T : Type} (l : list T) (v v' : T) :
  <[length l := v']> (l ++ [v]) = l ++ [v'].
Proof. induction l; simpl; [reflexivity | f_equal; assumption]. Qed.

(** The draws depend on the seed only; the process gains one generator. *)
Lemma draw_states_spec (seed : Z) (s : process) :
  draw_states seed s =
  if (seed <? 0)%Z then (Raise ValueError, s)
  else (Ok (fst (seeded_draws seed)),
        {| generators := generators s ++ [snd (seeded_draws seed)] |}).
Proof.
  unfold draw_states, bind, default_rng, seeded_draws.
  destruct (seed <? 0)%Z; [reflexivity|].
  unfold Generator_integers. simpl generators. simpl Z.leb.
  rewrite lookup_fresh.
  destruct (bitgen_integers (bitgen_seed seed) 0 4) as [r st1].
  cbn. rewrite insert_fresh, lookup_fresh.
  destruct (bitgen_integers st1 0 2) as [f st2].
  cbn. rewrite insert_fresh. reflexivity.
Qed.

Lemma augment_batch_spec {A : Type} (patch target : ndarray A) (seed : Z) (s : process) :
  augment_batch patch target seed s =
  match draw_states seed s with
  | (Ok (r, f), s') =>
      ((let? p := _flip_and_rotate patch r f in
        let? t := _flip_and_rotate target r f in
        Ok (p, t))%result, s')
  | (Raise e, s') => (Raise e, s')
  end.
Proof.
  unfold augment_batch, draw_states, bind.
  destruct (default_rng seed s) as [[rng|e] s1]; [|reflexivity].
  destruct (Generator_integers rng 0 4 s1) as [[r|e] s2]; [|reflexivity].
  destruct (Generator_integers rng 0 2 s2) as [[f|e] s3]; [|reflexivity].
  unfold ret, lift.
  destruct (_flip_and_rotate patch r f); [|reflexivity].
  destruct (_flip_and_rotate target r f); reflexivity.
Qed.

Lemma draw_states_process_free (seed : Z) (s1 s2 : process) :
  fst (draw_states seed s1) = fst (draw_states seed s2).
Proof. rewrite !draw_states_spec. destruct (seed <? 0)%Z; reflexivity. Qed.

Lemma augment_batch_process_free {A : Type} (patch target : ndarray A) (seed : Z)
    (s1 s2 : process) :
  fst (augment_batch patch target seed s1) = fst (augment_batch patch target seed s2).
Proof.
  rewrite !augment_batch_spec, !draw_states_spec.
  destruct (seed <? 0)%Z; [reflexivity|].
  destruct (fst (seeded_draws seed)). reflexivity.
Qed.

Lemma repeat_call_constant {T : Type} (c : M T) (n : nat) (s : process) :
  (forall s1 s2, fst (c s1) = fst (c s2)) ->
  fst (repeat_call n c s) = repeat (fst (c s)) n.
Proof.
  intros Hc. revert s; induction n as [|n IH]; intros s; simpl; [reflexivity|].
  destruct (c s) as [r s'] eqn:Hcs.
  specialize (IH s'). destruct (repeat_call n c s') as [rs s''].
  simpl in *. rewrite IH, (Hc s' s), Hcs. reflexivity.
Qed.

End Draws.

(** C1.  One call draws one pair of states and applies it to both arrays:
    the result is [_flip_and_rotate] of the patch and of the target at the
    same [rotate_state] and [flip_state]; an array passed as both patch and
    target comes back as two equal arrays (the call raises only for a
    negative seed or an array with fewer than two dimensions). *)
Theorem augment_batch_joint {G : BitGenerator} {A : Type}
    (patch target : ndarray A) (seed : Z) (s : process) :
  fst (augment_batch patch target seed s) =
    (let? st := fst (draw_states seed s) in
     let? p := _flip_and_rotate patch (fst st) (snd st) in
     let? t := _flip_and_rotate target (fst st) (snd st) in
     Ok (p, t))%result /\
  match fst (augment_batch patch patch seed s) with
  | Ok (p, t) => p = t
  | Raise _ => (seed < 0)%Z \/ ndim patch < 2
  end.
Proof.
  split.
  - rewrite augment_batch_spec.
    destruct (draw_states seed s) as [[[r f]|e] s']; reflexivity.
  - rewrite augment_batch_spec, draw_states_spec.
    destruct (Z.ltb_spec seed 0) as [Hs|Hs]; [left; exact Hs|].
    destruct (fst (seeded_draws seed)) as [r f]. simpl fst.
    destruct (Nat.lt_ge_cases (ndim patch) 2) as [Hn|Hn].
    + rewrite far_few_dims by exact Hn. right; exact Hn.
    + destruct (far_returns patch r f Hn) as [y ->]. reflexivity.
Qed.

(** C2.  The draws and the outputs of a call depend on the seed and the two
    arrays only, not on the process the call runs in: two calls anywhere
    agree, and [n] successive calls in one process all give the result of
    the first. *)
Theorem augment_batch_deterministic {G : BitGenerator} {A : Type}
    (patch target : ndarray A) (seed : Z) (s1 s2 : process) (n : nat) :
  fst (draw_states seed s1) = fst (draw_states seed s2) /\
  fst (augment_batch patch target seed s1) = fst (augment_batch patch target seed s2) /\
  fst (repeat_call n (draw_states seed) s1) = repeat (fst (draw_states seed s1)) n /\
  fst (repeat_call n (augment_batch patch target seed) s1) =
    repeat (fst (augment_batch patch target seed s1)) n.
Proof.
  split; [apply draw_states_process_free|].
  split; [apply augment_batch_process_free|].
  split; apply repeat_call_constant; intros;
    [apply draw_states_process_free | apply augment_batch_process_free].
Qed.

(** C5, as the code has it.  No shapes are compared: for a non-negative seed
    and any two arrays with at least two dimensions each, whatever their
    spatial shapes, the call returns the two arrays transformed with the one
    pair of states drawn. *)
Theorem augment_batch_shapes_unchecked {G : BitGenerator} {A : Type}
    (patch target : ndarray A) (seed : Z) (s : process) :
  (0 <= seed)%Z -> 2 <= ndim patch -> 2 <= ndim target ->
  exists r f p t,
    fst (draw_states seed s) = Ok (r, f) /\
    _flip_and_rotate patch r f = Ok p /\
    _flip_and_rotate target r f = Ok t /\
    fst (augment_batch patch target seed s) = Ok (p, t).
Proof.
  intros Hseed Hp Ht.
  rewrite augment_batch_spec, draw_states_spec.
  destruct (Z.ltb_spec seed 0) as [Hs|Hs]; [lia|].
  destruct (fst (seeded_draws seed)) as [r f]. simpl fst.
  destruct (far_returns patch r f Hp) as [p Hpr].
  destruct (far_returns target r f Ht) as [t Htr].
  exists r, f, p, t. rewrite Hpr, Htr. auto.
Qed.

Lemma augment_batch_shapes_unchecked_witness :
  exists r f p t,
    fst (draw_states (G:=lcg_generator) 42 {| generators := [] |}) = Ok (r, f) /\
    _flip_and_rotate patch22 r f = Ok p /\
    _flip_and_rotate target23 r f = Ok t /\
    fst (augment_batch (G:=lcg_generator) patch22 target23 42
           {| generators := [] |}) = Ok (p, t).
Proof.
  apply (augment_batch_shapes_unchecked (G:=lcg_generator) patch22 target23 42);
    [lia | dims | dims].
Defined.

(** C5 as stated fails: a 2 x 2 patch with a 2 x 3 target is accepted under
    every generator and in every process. *)
Lemma augment_batch_shapes_unchecked_counterexample :
  split_last2 (shape patch22) <> split_last2 (shape target23) /\
  (forall (G : BitGenerator) (s : process),
     exists p t, fst (augment_batch patch22 target23 42 s) = Ok (p, t)) /\
  fst (augment_batch (G:=lcg_generator) patch22 target23 42 {| generators := [] |}) =
    Ok ({| shape := [2; 2]; data := [4; 2; 3; 1]%Z |},
        {| shape := [3; 2]; data := [10; 7; 9; 6; 8; 5]%Z |}).
Proof.
  split; [discriminate|]. split; [|reflexivity].
  intros G s.
  rewrite augment_batch_spec, draw_states_spec. simpl Z.ltb. cbv iota.
  destruct (fst (seeded_draws 42)) as [r f]. simpl fst.
  destruct (far_returns patch22 r f) as [p ->]; [dims|].
  destruct (far_returns target23 r f) as [t ->]; [dims|].
  exists p, t. reflexivity.
Qed.

(** ** Properties of [normalize] and [denormalize] *)




(** * Further properties of the transforms *)

(** ** Normalisation *)


(** ** Elementwise maps pass through the geometric transforms *)

Section Naturality.
Context {A B : Type} (g : A -> B).

Lemma chunks_map n w (l : list A) :
  chunks n w (map g l) = map (map g) (chunks n w l).
Proof.
  revert l; induction n as [|n IH]; intros l; simpl; [reflexivity|].
  rewrite <- firstn_map, skipn_map, IH. reflexivity.
Qed.

Lemma map_blocks_map n sz (F : list A -> list A) (F' : list B -> list B) (l : list A) :
  (forall blk, F' (map g blk) = map g (F blk)) ->
  map_blocks n sz F' (map g l) = map g (map_blocks n sz F l).
Proof.
  intros HF. unfold map_blocks.
  rewrite chunks_map, concat_map, !map_map.
  f_equal. apply map_ext. intros blk. apply HF.
Qed.

Lemma zip_cons_map (r : list A) (cols : list (list A)) :
  zip_cons (map g r) (map (map g) cols) = map (map g) (zip_cons r cols).
Proof.
  revert cols; induction r as [|v r IH]; intros [|c cols]; simpl; try reflexivity.
  rewrite IH. reflexivity.
Qed.

Lemma columns_map w (rows : list (list A)) :
  columns w (map (map g) rows) = map (map g) (columns w rows).
Proof.
  induction rows as [|r rows IH]; simpl.
  - rewrite map_repeat. reflexivity.
  - rewrite IH. apply zip_cons_map.
Qed.

Lemma np_flip_map (m : ndarray A) (axis : Z) :
  np_flip (ndarray_map g m) axis = result_map (ndarray_map g) (np_flip m axis).
Proof.
  unfold np_flip, ndim. simpl shape.
  destruct (normalize_axis axis (length (shape m))) as [ax|e]; [|reflexivity].
  simpl. unfold ndarray_map. simpl. do 2 f_equal.
  apply map_blocks_map. intros blk.
  rewrite chunks_map, <- map_rev, concat_map. reflexivity.
Qed.

Lemma np_transpose_last2_map (m : ndarray A) :
  np_transpose_last2 (ndarray_map g m) =
  result_map (ndarray_map g) (np_transpose_last2 m).
Proof.
  unfold np_transpose_last2. simpl shape.
  destruct (split_last2 (shape m)) as [[[lead h] w]|]; [|reflexivity].
  simpl. unfold ndarray_map. simpl. do 2 f_equal.
  apply map_blocks_map. intros blk.
  rewrite chunks_map, columns_map, concat_map. reflexivity.
Qed.

Lemma np_rot90_map (m : ndarray A) (k : Z) :
  np_rot90 (ndarray_map g m) k = result_map (ndarray_map g) (np_rot90 m k).
Proof.
  unfold np_rot90. change (ndim (ndarray_map g m)) with (ndim m).
  destruct (ndim m <? 2); [reflexivity|]. cbv zeta.
  destruct (k mod 4 =? 0)%Z; [reflexivity|].
  destruct (k mod 4 =? 2)%Z; [|destruct (k mod 4 =? 1)%Z].
  - rewrite np_flip_map. destruct (np_flip m (-2)) as [y|e]; [|reflexivity].
    simpl. apply np_flip_map.
  - rewrite np_flip_map. destruct (np_flip m (-1)) as [y|e]; [|reflexivity].
    simpl. apply np_transpose_last2_map.
  - rewrite np_transpose_last2_map.
    destruct (np_transpose_last2 m) as [y|e]; [|reflexivity].
    simpl. apply np_flip_map.
Qed.

(** [_flip_and_rotate] moves the elements and never looks at them. *)
Lemma far_map (x : ndarray A) (r f : Z) :
  _flip_and_rotate (ndarray_map g x) r f =
  result_map (ndarray_map g) (_flip_and_rotate x r f).
Proof.
  unfold _flip_and_rotate. rewrite np_rot90_map.
  destruct (np_rot90 x r) as [y|e]; [|reflexivity]. simpl.
  destruct (f =? 1)%Z; [|reflexivity].
  rewrite np_flip_map. destruct (np_flip y (-1)) as [z|e]; reflexivity.
Qed.

End Naturality.

(** X4.  Normalising and augmenting can be done in either order, in the
    arithmetic of the code as in any other: the transform of a normalised
    (or denormalised) image is the normalised (or denormalised) transform,
    errors included. *)
Theorem far_normalize {S : Type} {ar : Arith S} (x : ndarray S) (mean std : S)
    (r f : Z) :
  _flip_and_rotate (normalize x mean std) r f =
    result_map (fun y => normalize y mean std) (_flip_and_rotate x r f) /\
  _flip_and_rotate (denormalize x mean std) r f =
    result_map (fun y => denormalize y mean std) (_flip_and_rotate x r f).
Proof.
  split.
  - exact (far_map (fun v => arith_div (arith_sub v mean) std) x r f).
  - exact (far_map (fun v => arith_add (arith_mul v std) mean) x r f).
Qed.

(** X5.  Paired arrays stay paired pixel by pixel: when the target is an
    elementwise function [g] of the patch, the augmented target is the same
    function of the augmented patch (the call raises only for a negative
    seed or a patch with fewer than two dimensions). *)
Theorem augment_batch_pixelwise {G : BitGenerator} {A : Type} (g : A -> A)
    (patch : ndarray A) (seed : Z) (s : process) :
  match fst (augment_batch patch (ndarray_map g patch) seed s) with
  | Ok (p, t) => t = ndarray_map g p
  | Raise _ => (seed < 0)%Z \/ ndim patch < 2
  end.
Proof.
  rewrite augment_batch_spec, draw_states_spec.
  destruct (Z.ltb_spec seed 0) as [Hs|Hs]; [left; exact Hs|].
  destruct (fst (seeded_draws seed)) as [r f]. simpl fst.
  rewrite far_map.
  destruct (Nat.lt_ge_cases (ndim patch) 2) as [Hn|Hn].
  - rewrite far_few_dims by exact Hn. right; exact Hn.
  - destruct (far_returns patch r f Hn) as [y ->]. reflexivity.
Qed.

(** ** The transform rearranges the pixels *)

Section Rearranging.
Context {A : Type}.
Implicit Types (x y : ndarray A) (l blk r : list A) (rows cols : list (list A)).

Lemma concat_rev_perm rows : Permutation (concat (rev rows)) (concat rows).
Proof.
  induction rows as [|r rows IH]; simpl; [reflexivity|].
  rewrite concat_app. simpl. rewrite app_nil_r.
  rewrite Permutation_app_comm. apply Permutation_app_head, IH.
Qed.

Lemma concat_map_perm (F : list A -> list A) rows :
  Forall (fun blk => Permutation (F blk) blk) rows ->
  Permutation (concat (map F rows)) (concat rows).
Proof.
  induction 1 as [|r rows Hr _ IH]; simpl; [reflexivity|].
  apply Permutation_app; assumption.
Qed.

Lemma concat_map_rev_perm rows :
  Permutation (concat (map (@rev A) rows)) (concat rows).
Proof.
  apply concat_map_perm. apply Forall_forall. intros r _.
  symmetry. apply Permutation_rev.
Qed.

Lemma concat_zip_cons_perm r cols :
  length r = length cols ->
  Permutation (concat (zip_cons r cols)) (r ++ concat cols).
Proof.
  revert cols; induction r as [|v r IH]; intros [|c cols] Hlen;
    try discriminate; simpl; [reflexivity|].
  constructor. rewrite IH by (simpl in Hlen; lia).
  apply Permutation_app_swap_app.
Qed.

Lemma concat_repeat_nil w : concat (repeat (@nil A) w) = [].
Proof. induction w; simpl; auto. Qed.

Lemma concat_columns_perm h w rows :
  rect h w rows -> Permutation (concat (columns w rows)) (concat rows).
Proof.
  intros [Hh Hw]. revert h Hh.
  induction Hw as [|r rows Hr Hw IH]; intros h Hh; simpl.
  - rewrite concat_repeat_nil. reflexivity.
  - destruct (rect_columns (length rows) w rows) as [Hlen _]; [split; auto|].
    rewrite concat_zip_cons_perm by lia.
    apply Permutation_app_head. apply (IH _ eq_refl).
Qed.

Lemma far_rows_perm rs fs h w rows :
  rect h w rows -> Permutation (concat (far_rows rs fs w rows)) (concat rows).
Proof.
  intros Hr. unfold far_rows. cbv zeta.
  assert (Hrot : Permutation (concat (rot_rows rs w rows)) (concat rows)).
  { unfold rot_rows. cbv zeta.
    destruct (mod4_cases rs) as [Hk|[Hk|[Hk|Hk]]]; rewrite Hk; simpl.
    - reflexivity.
    - rewrite (concat_columns_perm h w) by (apply rect_map_rev, Hr).
      apply concat_map_rev_perm.
    - rewrite concat_map_rev_perm. apply concat_rev_perm.
    - rewrite concat_map_rev_perm. apply (concat_columns_perm h w), Hr. }
  destruct (fs =? 1)%Z; [rewrite concat_map_rev_perm|]; exact Hrot.
Qed.

Lemma map_blocks_perm n sz (F : list A -> list A) l :
  length l = n * sz ->
  (forall blk, length blk = sz -> Permutation (F blk) blk) ->
  Permutation (map_blocks n sz F l) l.
Proof.
  intros Hl HF. unfold map_blocks.
  rewrite concat_map_perm.
  - rewrite concat_chunks by exact Hl. reflexivity.
  - eapply Forall_impl; [apply chunks_row_length; lia | exact HF].
Qed.

End Rearranging.

(** X6.  The transform only moves pixels: on a well-formed array with at
    least two dimensions it returns a well-formed array whose buffer is a
    permutation of the input's, so no value is dropped, repeated or made up. *)
Theorem far_permutes {A : Type} (x : ndarray A) (r f : Z) :
  wf_ndarray x -> 2 <= ndim x ->
  exists y, _flip_and_rotate x r f = Ok y /\ wf_ndarray y /\
            Permutation (data y) (data x).
Proof.
  intros Hwf Hn. destruct (shape_split x Hn) as (lead & h & w & Hs).
  eexists. split; [apply (far_planes lead h w); assumption|].
  split; [apply far_wf; assumption|].
  red in Hwf. rewrite Hs, size_of_planes in Hwf.
  unfold on_planes. simpl data.
  apply map_blocks_perm; [exact Hwf|].
  intros blk Hblk.
  rewrite (far_rows_perm r f h w) by (apply rect_chunks; lia).
  rewrite concat_chunks by exact Hblk. reflexivity.
Qed.

Lemma far_permutes_witness :
  exists y, _flip_and_rotate stack223 3 1 = Ok y /\ wf_ndarray y /\
            Permutation (data y) (data stack223).
Proof. apply (far_permutes stack223 3 1); [reflexivity | dims]. Defined.

(** ** How two transforms compose *)

Section Composing.
Context {A : Type}.
Implicit Types (x y : ndarray A) (rows : list (list A)).

Lemma rot_rows_congr a b w rows :
  (a mod 4 = b mod 4)%Z -> rot_rows a w rows = rot_rows b w rows.
Proof. intros H. unfold rot_rows. rewrite H. reflexivity. Qed.

Lemma rot_dims_congr a b h w : Z.odd a = Z.odd b -> rot_dims a h w = rot_dims b h w.
Proof. intros H. unfold rot_dims. rewrite H. reflexivity. Qed.

Lemma rot_dims_add a b h w :
  rot_dims a (fst (rot_dims b h w)) (snd (rot_dims b h w)) = rot_dims (a + b) h w.
Proof.
  unfold rot_dims. rewrite Z.odd_add.
  destruct (Z.odd a), (Z.odd b); reflexivity.
Qed.

Lemma rot_rows_add_nat (n : nat) b h w rows :
  rect h w rows ->
  rot_rows (Z.of_nat n) (snd (rot_dims b h w)) (rot_rows b w rows) =
  rot_rows (Z.of_nat n + b) w rows.
Proof.
  intros Hr. induction n as [|n IH].
  - reflexivity.
  - replace (Z.of_nat (S n)) with (Z.of_nat n + 1)%Z by lia.
    rewrite <- (rot_rows_succ (Z.of_nat n) (fst (rot_dims b h w)) (snd (rot_dims b h w)))
      by (apply rot_rows_rect, Hr).
    rewrite IH, rot_dims_add.
    rewrite (rot_rows_succ (Z.of_nat n + b) h w) by exact Hr.
    f_equal. lia.
Qed.

(** Turning [b] times and then [a] times is turning [a + b] times. *)
Lemma rot_rows_add a b h w rows :
  rect h w rows ->
  rot_rows a (snd (rot_dims b h w)) (rot_rows b w rows) = rot_rows (a + b) w rows.
Proof.
  intros Hr. pose proof (Z.mod_pos_bound a 4).
  rewrite (rot_rows_congr a (Z.of_nat (Z.to_nat (a mod 4)))).
  - rewrite (rot_rows_add_nat _ b h w) by exact Hr.
    apply rot_rows_congr. rewrite Z2Nat.id by lia.
    apply Z.add_mod_idemp_l. lia.
  - rewrite Z2Nat.id by lia. rewrite Z.mod_mod by lia. reflexivity.
Qed.

(** Turning a mirrored plane is mirroring the plane turned the other way. *)
Lemma rot_rows_flip k w rows :
  rot_rows k w (map (@rev A) rows) = map (@rev A) (rot_rows (- k) w rows).
Proof.
  unfold rot_rows. cbv zeta.
  replace (- k)%Z with (0 - k)%Z by lia. rewrite (Zminus_mod 0 k).
  destruct (mod4_cases k) as [Hk|[Hk|[Hk|Hk]]]; rewrite Hk; simpl.
  - reflexivity.
  - rewrite !map_rev_involutive. reflexivity.
  - rewrite <- map_rev. reflexivity.
  - reflexivity.
Qed.

Lemma far_rows_compose r1 f1 r2 f2 h w rows :
  rect h w rows ->
  far_rows r2 f2 (snd (rot_dims r1 h w)) (far_rows r1 f1 w rows) =
  far_rows (if (f1 =? 1)%Z then r1 - r2 else r1 + r2)%Z
           (if xorb (f1 =? 1)%Z (f2 =? 1)%Z then 1 else 0)%Z w rows.
Proof.
  intros Hr. unfold far_rows. cbv zeta.
  destruct (f1 =? 1)%Z.
  - rewrite rot_rows_flip, (rot_rows_add (- r2) r1 h w) by exact Hr.
    replace (- r2 + r1)%Z with (r1 - r2)%Z by lia.
    destruct (f2 =? 1)%Z; simpl; [apply map_rev_involutive | reflexivity].
  - rewrite (rot_rows_add r2 r1 h w) by exact Hr.
    replace (r2 + r1)%Z with (r1 + r2)%Z by lia.
    destruct (f2 =? 1)%Z; reflexivity.
Qed.

(** Two calls in a row, plane by plane. *)
Lemma far_far_planes lead h w x r1 f1 r2 f2 :
  shape x = lead ++ [h; w] -> wf_ndarray x ->
  (let? y := _flip_and_rotate x r1 f1 in _flip_and_rotate y r2 f2)%result =
  Ok (on_planes lead h w (fst (rot_dims (r2 + r1) h w)) (snd (rot_dims (r2 + r1) h w))
        (fun rows => far_rows r2 f2 (snd (rot_dims r1 h w)) (far_rows r1 f1 w rows)) x).
Proof.
  intros Hs Hwf.
  rewrite (far_planes lead h w) by assumption. simpl result_bind.
  rewrite (far_planes lead (fst (rot_dims r1 h w)) (snd (rot_dims r1 h w)));
    [|reflexivity|apply far_wf; assumption].
  rewrite on_planes_compose;
    [|assumption|assumption|intros rows Hr; apply far_rows_rect, Hr].
  rewrite rot_dims_add. reflexivity.
Qed.

End Composing.

(** X7.  The transforms are closed under composition: a call with states
    [(r1, f1)] followed by a call with [(r2, f2)] is one call, with
    [rotate_state = r1 + r2] when the first call did not flip and [r1 - r2]
    when it did, and with a flip exactly when one of the two calls flipped. *)
Theorem far_compose {A : Type} (x : ndarray A) (r1 f1 r2 f2 : Z) :
  wf_ndarray x ->
  (let? y := _flip_and_rotate x r1 f1 in _flip_and_rotate y r2 f2)%result =
  _flip_and_rotate x (if (f1 =? 1)%Z then r1 - r2 else r1 + r2)%Z
                     (if xorb (f1 =? 1)%Z (f2 =? 1)%Z then 1 else 0)%Z.
Proof.
  intros Hwf. destruct (Nat.lt_ge_cases (ndim x) 2) as [Hn|Hn].
  - rewrite !far_few_dims by exact Hn. reflexivity.
  - destruct (shape_split x Hn) as (lead & h & w & Hs).
    rewrite (far_far_planes lead h w) by assumption.
    rewrite (far_planes lead h w) by assumption.
    rewrite (rot_dims_congr (r2 + r1) (if (f1 =? 1)%Z then r1 - r2 else r1 + r2)%Z)
      by (destruct (f1 =? 1)%Z; rewrite ?Z.odd_add, ?Z.odd_sub; apply xorb_comm).
    f_equal. apply on_planes_ext; [assumption|assumption|].
    intros rows Hr. apply (far_rows_compose r1 f1 r2 f2 h w), Hr.
Qed.

Lemma far_compose_witness :
  (let? y := _flip_and_rotate stack223 3 1 in _flip_and_rotate y 2 7)%result =
  _flip_and_rotate stack223 (if (1 =? 1)%Z then 3 - 2 else 3 + 2)%Z
                            (if xorb (1 =? 1)%Z (7 =? 1)%Z then 1 else 0)%Z.
Proof. apply (far_compose stack223 3 1 2 7). reflexivity. Defined.

(** X8.  Every transform can be undone by one more call: with the same
    [rotate_state] and the flip again when it flipped, with the opposite
    [rotate_state] and no flip when it did not. *)
Theorem far_undo {A : Type} (x : ndarray A) (r f : Z) :
  wf_ndarray x -> 2 <= ndim x ->
  (let? y := _flip_and_rotate x r f in
   _flip_and_rotate y (if (f =? 1)%Z then r else - r)%Z f)%result = Ok x.
Proof.
  intros Hwf Hn. destruct (shape_split x Hn) as (lead & h & w & Hs).
  rewrite (far_far_planes lead h w) by assumption.
  rewrite (rot_dims_congr _ 0)
    by (destruct (f =? 1)%Z; rewrite Z.odd_add, ?Z.odd_opp;
        destruct (Z.odd r); reflexivity).
  f_equal. apply on_planes_id; [assumption|assumption|].
  intros rows Hr. rewrite (far_rows_compose _ _ _ _ h w) by exact Hr.
  unfold far_rows. cbv zeta. rewrite xorb_nilpotent. simpl.
  rewrite (rot_rows_congr _ 0); [reflexivity|].
  destruct (f =? 1)%Z; f_equal; lia.
Qed.

Lemma far_undo_witness :
  wf_ndarray stack223 /\ 2 <= ndim stack223 /\
  (let? y := _flip_and_rotate stack223 3 1 in
   _flip_and_rotate y (if (1 =? 1)%Z then 3 else - 3)%Z 1)%result = Ok stack223.
Proof.
  split; [reflexivity|]. split; [dims|].
  apply (far_undo stack223 3 1); [reflexivity | dims].
Defined.

(** X9.  Two of the eight transforms are familiar operations: states
    [(2, 1)] mirror the rows of every plane top to bottom ([np.flip] along
    axis -2), and states [(3, 1)] transpose every plane. *)
Theorem far_flip_rows_and_transpose {A : Type} (x : ndarray A) :
  wf_ndarray x -> 2 <= ndim x ->
  _flip_and_rotate x 2 1 = np_flip x (-2) /\
  _flip_and_rotate x 3 1 = np_transpose_last2 x.
Proof.
  intros Hwf Hn. destruct (shape_split x Hn) as (lead & h & w & Hs).
  rewrite !(far_planes lead h w) by assumption.
  rewrite (np_flip_rows lead h w), (np_transpose_planes lead h w) by assumption.
  split; f_equal; (apply on_planes_ext; [assumption|assumption|]);
    intros rows _; apply map_rev_involutive.
Qed.

Lemma far_flip_rows_and_transpose_witness :
  wf_ndarray stack223 /\ 2 <= ndim stack223 /\
  _flip_and_rotate stack223 2 1 = np_flip stack223 (-2) /\
  _flip_and_rotate stack223 3 1 = np_transpose_last2 stack223.
Proof.
  split; [reflexivity|]. split; [dims|].
  apply (far_flip_rows_and_transpose stack223); [reflexivity | dims].
Defined.

(** ** Entries of a mirrored and of a half-turned matrix *)

(** X10.  On an [h] x [w] matrix, states [(0, 1)] mirror left to right:
    entry [(i, j)] of the result is entry [(i, w - 1 - j)] of the input; and
    states [(2, 0)] are the half turn: entry [(i, j)] of the result is entry
    [(h - 1 - i, w - 1 - j)] of the input. *)
Theorem far_mirror_entries {A : Type} (x : ndarray A) (h w i j : nat) :
  shape x = [h; w] -> wf_ndarray x -> i < h -> j < w ->
  (exists y, _flip_and_rotate x 0 1 = Ok y /\ shape y = [h; w] /\
             get2 y i j = get2 x i (w - 1 - j)) /\
  (exists y, _flip_and_rotate x 2 0 = Ok y /\ shape y = [h; w] /\
             get2 y i j = get2 x (h - 1 - i) (w - 1 - j)).
Proof.
  intros Hs Hwf Hi Hj.
  rewrite !(far_planes [] h w) by assumption.
  red in Hwf. rewrite Hs in Hwf.
  change [h; w] with ([] ++ [h; w]) in Hwf. rewrite size_of_planes in Hwf.
  change (size_of []) with 1 in Hwf.
  assert (Hrect : rect h w (chunks h w (data x))) by (apply rect_chunks; lia).
  assert (Hrow : forall k, k < h -> k * w + w <= length (data x)) by (intros; nia).
  assert (Hin : forall a b, a < h -> b < w -> (a <? h) && (b <? w) = true)
    by (intros; apply andb_true_iff; split; apply Nat.ltb_lt; lia).
  split; eexists; (split; [reflexivity|]); (split; [reflexivity|]);
    unfold get2, on_planes; rewrite Hs;
    cbn [shape data app fst snd rot_dims Z.odd];
    rewrite !Hin by lia;
    unfold map_blocks; simpl size_of; simpl chunks; simpl map; simpl concat;
    rewrite app_nil_r, chunks_firstn.
  - change (far_rows 0 1 w (chunks h w (data x)))
      with (map (@rev A) (chunks h w (data x))).
    rewrite (concat_lookup w); [|exact (proj2 (rect_map_rev h w _ Hrect))|exact Hj].
    rewrite list_lookup_fmap, chunks_lookup by exact Hi. simpl.
    specialize (Hrow i Hi).
    rewrite rev_lookup by (rewrite length_firstn, length_skipn; lia).
    rewrite length_firstn, length_skipn.
    rewrite lookup_take_lt by lia. rewrite lookup_drop. f_equal. lia.
  - change (far_rows 2 0 w (chunks h w (data x)))
      with (map (@rev A) (rev (chunks h w (data x)))).
    rewrite (concat_lookup w);
      [|exact (proj2 (rect_map_rev h w _ (rect_rev h w _ Hrect)))|exact Hj].
    rewrite list_lookup_fmap.
    rewrite rev_lookup by (rewrite length_chunks; exact Hi).
    rewrite length_chunks, chunks_lookup by lia. simpl.
    assert (Hrow' := Hrow (h - S i) ltac:(lia)).
    rewrite rev_lookup by (rewrite length_firstn, length_skipn; lia).
    rewrite length_firstn, length_skipn.
    rewrite lookup_take_lt by lia. rewrite lookup_drop. f_equal. lia.
Qed.

Lemma far_mirror_entries_witness :
  (exists y, _flip_and_rotate target23 0 1 = Ok y /\ shape y = [2; 3] /\
             get2 y 1 0 = get2 target23 1 (3 - 1 - 0)) /\
  (exists y, _flip_and_rotate target23 2 0 = Ok y /\ shape y = [2; 3] /\
             get2 y 1 0 = get2 target23 (2 - 1 - 1) (3 - 1 - 0)).
Proof.
  apply (far_mirror_entries target23 2 3 1 0); [reflexivity | reflexivity | lia | lia].
Defined.

(** ** More about [augment_batch] *)

(** X11.  [augment_batch] raises in exactly three situations, always with
    [ValueError]: a negative seed, a patch with fewer than two dimensions,
    or a target with fewer than two dimensions. *)
Theorem augment_batch_raises {G : BitGenerator} {A : Type}
    (patch target : ndarray A) (seed : Z) (s : process) (e : exn) :
  fst (augment_batch patch target seed s) = Raise e <->
  e = ValueError /\ ((seed < 0)%Z \/ ndim patch < 2 \/ ndim target < 2).
Proof.
  rewrite augment_batch_spec, draw_states_spec.
  destruct (Z.ltb_spec seed 0) as [Hs|Hs]; simpl fst.
  - split; [intros [= <-]; auto | intros [-> _]; reflexivity].
  - destruct (fst (seeded_draws seed)) as [r f].
    destruct (Nat.lt_ge_cases (ndim patch) 2) as [Hp|Hp].
    + rewrite (far_few_dims patch) by exact Hp. simpl.
      split; [intros [= <-]; auto | intros [-> _]; reflexivity].
    + destruct (far_returns patch r f Hp) as [p ->]. simpl.
      destruct (Nat.lt_ge_cases (ndim target) 2) as [Ht|Ht].
      * rewrite (far_few_dims target) by exact Ht. simpl.
        split; [intros [= <-]; auto | intros [-> _]; reflexivity].
      * destruct (far_returns target r f Ht) as [t ->]. simpl.
        split; [discriminate | intros [_ [H|[H|H]]]; lia].
Qed.

(** X12.  A call leaves every generator that existed before it as it was:
    with a negative seed the process is unchanged, otherwise exactly one new
    generator is added, in the state the seed leads to after two draws,
    whether or not a transform raised afterwards. *)
Theorem augment_batch_process {G : BitGenerator} {A : Type}
    (patch target : ndarray A) (seed : Z) (s : process) :
  snd (augment_batch patch target seed s) =
  if (seed <? 0)%Z then s
  else {| generators := generators s ++ [snd (seeded_draws seed)] |}.
Proof.
  rewrite augment_batch_spec, draw_states_spec.
  destruct (seed <? 0)%Z; [reflexivity|].
  destruct (fst (seeded_draws seed)) as [r f]. reflexivity.
Qed.

(** X13.  With a generator that keeps its draws inside [[low, high)], the
    states every call with a non-negative seed passes to the primitive are
    in range: [rotate_state] in {0, 1, 2, 3} and [flip_state] in {0, 1}. *)
Theorem draw_states_in_range {G : BitGenerator} (seed : Z) (s : process) :
  (forall st low high, (low < high)%Z ->
     (low <= fst (bitgen_integers st low high) < high)%Z) ->
  (0 <= seed)%Z ->
  exists r f, fst (draw_states seed s) = Ok (r, f) /\
              (0 <= r < 4)%Z /\ (0 <= f < 2)%Z.
Proof.
  intros Hrange Hseed. rewrite draw_states_spec.
  destruct (Z.ltb_spec seed 0) as [Hs|Hs]; [lia|].
  unfold seeded_draws.
  pose proof (Hrange (bitgen_seed seed) 0%Z 4%Z ltac:(lia)) as H4.
  destruct (bitgen_integers (bitgen_seed seed) 0 4) as [r st1].
  pose proof (Hrange st1 0%Z 2%Z ltac:(lia)) as H2.
  destruct (bitgen_integers st1 0 2) as [f st2].
  exists r, f. simpl in *. auto.
Qed.

Lemma draw_states_in_range_witness :
  exists r f, fst (draw_states (G:=lcg_generator) 42 {| generators := [] |}) = Ok (r, f) /\
              (0 <= r < 4)%Z /\ (0 <= f < 2)%Z.
Proof.
  apply (draw_states_in_range (G:=lcg_generator) 42); [|lia].
  intros st low high Hlt. simpl.
  pose proof (Z.mod_pos_bound
                (((1103515245 * st + 12345) mod 2147483648) / 65536) (high - low)).
  lia.
Defined.

(** X14.  Arrays that share their spatial shape keep sharing it: for a
    non-negative seed, a patch of shape [lead1 ++ [h; w]] and a target of
    shape [lead2 ++ [h; w]] (the leading axes may differ) come back with
    shapes [lead1 ++ [h'; w']] and [lead2 ++ [h'; w']] for the same
    [(h', w')], which is [(h, w)] or [(w, h)]. *)
Theorem augment_batch_aligned {G : BitGenerator} {A : Type}
    (patch target : ndarray A) (lead1 lead2 : list nat) (h w : nat)
    (seed : Z) (s : process) :
  shape patch = lead1 ++ [h; w] -> shape target = lead2 ++ [h; w] ->
  (0 <= seed)%Z ->
  exists p t h' w',
    fst (augment_batch patch target seed s) = Ok (p, t) /\
    shape p = lead1 ++ [h'; w'] /\ shape t = lead2 ++ [h'; w'] /\
    ((h', w') = (h, w) \/ (h', w') = (w, h)).
Proof.
  intros Hp Ht Hseed.
  rewrite augment_batch_spec, draw_states_spec.
  destruct (Z.ltb_spec seed 0) as [Hs|Hs]; [lia|].
  destruct (fst (seeded_draws seed)) as [r f]. simpl fst.
  destruct (far_shape patch lead1 h w r f Hp) as [dp ->].
  destruct (far_shape target lead2 h w r f Ht) as [dt ->].
  simpl. do 4 eexists. split; [reflexivity|].
  split; [reflexivity|]. split; [reflexivity|].
  unfold rot_dims. destruct (Z.odd r); auto.
Qed.

Lemma augment_batch_aligned_witness :
  exists p t h' w',
    fst (augment_batch (G:=lcg_generator) stack223 target23 42 {| generators := [] |})
      = Ok (p, t) /\
    shape p = [2] ++ [h'; w'] /\ shape t = [] ++ [h'; w'] /\
    ((h', w') = (2, 3) \/ (h', w') = (3, 2)).
Proof.
  apply (augment_batch_aligned (G:=lcg_generator) stack223 target23 [2] [] 2 3 42);
    [reflexivity | reflexivity | lia].
Defined.
